(** * Cross-fragment redaction engine of [scripts/redact.js]

    A shallow embedding of [replaceInXML], [handleCrossTagReplacement],
    [performCrossTagReplace] and [processDocx], together with the
    JavaScript string primitives they rely on, and the properties of the
    engine stated over that embedding.

    A JavaScript string is a sequence of UTF-16 code units; it is modelled
    as [list N].  Positions are indices into that list. *)

From Stdlib Require Import List NArith ZArith Lia Bool Arith Ascii String.
From stdpp Require Import base gmap.
Import ListNotations.

Local Open Scope nat_scope.
Local Open Scope list_scope.

(* ===================================================================== *)
(** ** JavaScript strings *)
(* ===================================================================== *)

Module JS.

Definition jsstring := list N.

(** Decoding of a UTF-8 literal of this file into UTF-16 code units, so
    that markup and rule texts can be written as ordinary literals.  One,
    two and three byte sequences give one unit; a four byte sequence gives
    a surrogate pair. *)
Fixpoint utf16_of_bytes (fuel : nat) (bs : list N) : jsstring :=
  match fuel with
  | O => []
  | S fuel' =>
    match bs with
    | [] => []
    | b0 :: r0 =>
      if (b0 <? 128)%N then b0 :: utf16_of_bytes fuel' r0
      else if (b0 <? 224)%N then
        match r0 with
        | b1 :: r1 =>
          ((b0 - 192) * 64 + (b1 - 128))%N :: utf16_of_bytes fuel' r1
        | _ => []
        end
      else if (b0 <? 240)%N then
        match r0 with
        | b1 :: b2 :: r2 =>
          ((b0 - 224) * 4096 + (b1 - 128) * 64 + (b2 - 128))%N
            :: utf16_of_bytes fuel' r2
        | _ => []
        end
      else
        match r0 with
        | b1 :: b2 :: b3 :: r3 =>
          let cp := ((b0 - 240) * 262144 + (b1 - 128) * 4096
                     + (b2 - 128) * 64 + (b3 - 128))%N in
          let v := (cp - 65536)%N in
          (55296 + v / 1024)%N :: (56320 + v mod 1024)%N
            :: utf16_of_bytes fuel' r3
        | _ => []
        end
    end
  end.

Definition str (s : string) : jsstring :=
  let bs := List.map N_of_ascii (list_ascii_of_string s) in
  utf16_of_bytes (List.length bs) bs.

(** [a === b] on strings. *)
Fixpoint eqs (a b : jsstring) : bool :=
  match a, b with
  | [], [] => true
  | c :: a', d :: b' => (c =? d)%N && eqs a' b'
  | _, _ => false
  end.

(** [String.prototype.startsWith] at position 0: [p] is a prefix of [s]. *)
Fixpoint startsWith (p s : jsstring) : bool :=
  match p with
  | [] => true
  | c :: p' =>
    match s with
    | [] => false
    | d :: s' => (c =? d)%N && startsWith p' s'
    end
  end.

(** [s.indexOf(pat)]: the first position at which [pat] occurs, [None] for
    JavaScript's [-1].  [indexOfFrom pat s pos] searches the suffix [s] that
    starts at position [pos]. *)
Fixpoint indexOfFrom (pat s : jsstring) (pos : nat) : option nat :=
  if startsWith pat s then Some pos
  else match s with
       | [] => None
       | _ :: s' => indexOfFrom pat s' (S pos)
       end.

Definition indexOf (s pat : jsstring) : option nat := indexOfFrom pat s 0.

(** [s.includes(pat)]. *)
Definition includes (s pat : jsstring) : bool :=
  match indexOf s pat with Some _ => true | None => false end.

(** [s.lastIndexOf(pat)]: the last position at which [pat] occurs. *)
Fixpoint lastIndexOfFrom (pat s : jsstring) (pos : nat) (found : option nat)
  : option nat :=
  let found' := if startsWith pat s then Some pos else found in
  match s with
  | [] => found'
  | _ :: s' => lastIndexOfFrom pat s' (S pos) found'
  end.

Definition lastIndexOf (s pat : jsstring) : option nat :=
  lastIndexOfFrom pat s 0 None.

(** [s.substring(a, b)]: both arguments are clamped to the length and
    swapped when [a > b]. *)
Definition substring (s : jsstring) (a b : nat) : jsstring :=
  let a' := Nat.min a (List.length s) in
  let b' := Nat.min b (List.length s) in
  let lo := Nat.min a' b' in
  let hi := Nat.max a' b' in
  firstn (hi - lo) (skipn lo s).

(** [s.substring(a)]. *)
Definition substringFrom (s : jsstring) (a : nat) : jsstring :=
  substring s a (List.length s).

Definition DOLLAR : N := 36.
Definition AMP : N := 38.
Definition QUOTE : N := 39.
Definition BACKTICK : N := 96.

(** [GetSubstitution] for a string pattern (no captures): [$$] is a dollar
    sign, [$&] the matched text, [$`] the text before the match, [$'] the
    text after it; every other code unit, a lone dollar sign included,
    stands for itself. *)
Fixpoint getSubstitution (matched before after template : jsstring)
  : jsstring :=
  match template with
  | [] => []
  | c :: t' =>
    if (c =? DOLLAR)%N then
      match t' with
      | d :: t'' =>
        if (d =? DOLLAR)%N then
          DOLLAR :: getSubstitution matched before after t''
        else if (d =? AMP)%N then
          matched ++ getSubstitution matched before after t''
        else if (d =? BACKTICK)%N then
          before ++ getSubstitution matched before after t''
        else if (d =? QUOTE)%N then
          after ++ getSubstitution matched before after t''
        else c :: getSubstitution matched before after t'
      | [] => [c]
      end
    else c :: getSubstitution matched before after t'
  end.

(** [s.replace(pat, rep)] with a string pattern and a string replacement:
    only the first occurrence is replaced, and [rep] is a replacement
    template. *)
Definition replaceStr (s pat rep : jsstring) : jsstring :=
  match indexOf s pat with
  | None => s
  | Some p =>
    let before := firstn p s in
    let after := skipn (p + List.length pat) s in
    before ++ getSubstitution pat before after rep ++ after
  end.

(** [s.split(sep)] for a non-empty separator: [skip] counts the code units
    of a separator occurrence still to be passed over, [cur] holds the
    piece being collected, reversed. *)
Fixpoint splitAux (sep s : jsstring) (skip : nat) (cur : jsstring)
  : list jsstring :=
  match s with
  | [] => [rev cur]
  | c :: s' =>
    match skip with
    | S k => splitAux sep s' k cur
    | O =>
      if startsWith sep s
      then rev cur :: splitAux sep s' (List.length sep - 1) []
      else splitAux sep s' 0 (c :: cur)
    end
  end.

(** [s.split(sep)]: an empty separator splits into single code units. *)
Definition split (s sep : jsstring) : list jsstring :=
  match sep with
  | [] => List.map (fun c => [c]) s
  | _ :: _ => splitAux sep s 0 []
  end.

(** [parts.join(glue)]. *)
Fixpoint join (parts : list jsstring) (glue : jsstring) : jsstring :=
  match parts with
  | [] => []
  | [p] => p
  | p :: rest => p ++ glue ++ join rest glue
  end.

End JS.
Import JS.


(* ===================================================================== *)
(** ** The text-leaf pattern *)
(* ===================================================================== *)

Definition LT : N := 60.
Definition GT : N := 62.

(** The literal parts of the text-leaf pattern (an opening [<w:t], any
    code units but [>], a [>], as content any code units but [<], and the
    closing [</w:t>]) and the run markers searched by the splicer. *)
Definition T_OPEN : jsstring := Eval cbv in str "<w:t".
Definition T_CLOSE : jsstring := Eval cbv in str "</w:t>".
Definition R_OPEN : jsstring := Eval cbv in str "<w:r>".
Definition R_CLOSE : jsstring := Eval cbv in str "</w:r>".

(** The longest prefix of [s] whose code units satisfy [p], and the rest. *)
Fixpoint spanWhile (p : N -> bool) (s : jsstring) : jsstring * jsstring :=
  match s with
  | [] => ([], [])
  | c :: s' =>
    if p c then let (a, b) := spanWhile p s' in (c :: a, b) else ([], s)
  end.

Definition notGT (c : N) : bool := negb (c =? GT)%N.
Definition notLT (c : N) : bool := negb (c =? LT)%N.

(** A match of the pattern at the head of [s], as (opening tag, content).
    Each of the two negated classes excludes the code unit that must
    follow it, so giving back code units never helps: the greedy content
    class of [handleCrossTagReplacement] and the lazy one of [replaceInXML]
    match the same text. *)
Definition matchTTag (s : jsstring) : option (jsstring * jsstring) :=
  if startsWith T_OPEN s then
    let (attrs, r2) := spanWhile notGT (skipn (List.length T_OPEN) s) in
    match r2 with
    | [] => None
    | _ :: r3 =>
      let (body, r4) := spanWhile notLT r3 in
      if startsWith T_CLOSE r4
      then Some (T_OPEN ++ attrs ++ [GT], body)
      else None
    end
  else None.

(** [s.replace(pattern, callback)] for the global text-leaf pattern: the
    matches are found from left to right without overlap and each is
    replaced by what the callback returns for it, taken literally.  The
    callback gets the opening tag and the content of the match and may
    update a state [St] (the variables it closes over).  [skip] counts the
    code units of the last match still to be passed over. *)
Fixpoint replaceTTags {St : Type}
    (cb : St -> jsstring -> jsstring -> jsstring * St)
    (s : jsstring) (skip : nat) (st : St) : jsstring :=
  match s with
  | [] => []
  | c :: s' =>
    match skip with
    | S k => replaceTTags cb s' k st
    | O =>
      match matchTTag s with
      | Some (openTag, body) =>
        let (out, st') := cb st openTag body in
        out ++ replaceTTags cb s'
                 (List.length (openTag ++ body ++ T_CLOSE) - 1) st'
      | None => c :: replaceTTags cb s' 0 st
      end
    end
  end.

(* ===================================================================== *)
(** ** Fragment extractor *)
(* ===================================================================== *)

Record TextNode := mkTextNode {
  fullMatch : jsstring;
  content : jsstring;
  startIndex : nat;
  endIndex : nat
}.

(** The mutable part of a global pattern object. *)
Record RegExp := mkRegExp { lastIndex : nat }.

(** [re.lastIndex = n]. *)
Definition setLastIndex (re : RegExp) (n : nat) : RegExp := mkRegExp n.

(** [while ((match = tTagPattern.exec(xmlContent)) !== null) push]: [exec]
    looks for the leftmost match at or after [lastIndex] and moves
    [lastIndex] to the end of the match.  [s] is the suffix of the markup
    at position [pos]. *)
Fixpoint execAll (s : jsstring) (pos li : nat) : list TextNode :=
  match s with
  | [] => []
  | _ :: s' =>
    if pos <? li then execAll s' (S pos) li
    else
      match matchTTag s with
      | Some (openTag, body) =>
        let full := openTag ++ body ++ T_CLOSE in
        mkTextNode full body pos (pos + List.length full)
          :: execAll s' (S pos) (pos + List.length full)
      | None => execAll s' (S pos) li
      end
  end.

(** Lines 67-81: the pattern's [lastIndex] is set to 0, the matches are
    collected, and the failing last [exec] leaves [lastIndex] at 0. *)
Definition extractTextNodes (re : RegExp) (xmlContent : jsstring)
  : list TextNode * RegExp :=
  let re0 := setLastIndex re 0 in
  (execAll xmlContent 0 (lastIndex re0), setLastIndex re0 0).

(* ===================================================================== *)
(** ** Cross-fragment matcher and conflict resolver *)
(* ===================================================================== *)

Record Redaction := mkRedaction {
  original : jsstring;
  replacement : jsstring
}.

Record Match := mkMatch {
  startNodeIndex : nat;
  actualSpan : Z;
  m_original : jsstring;
  m_replacement : jsstring;
  offsetInFirstNode : Z
}.

(** [textNodes[k]].  Every index the engine reads lies inside the window
    the matcher is looking at (see [findMatches_in_range]); the default is
    never returned there. *)
Definition nodeAt (textNodes : list TextNode) (k : nat) : TextNode :=
  nth k textNodes (mkTextNode [] [] 0 0).

(** Lines 94-97: the contents of [textNodes[i]] .. [textNodes[i+span-1]]. *)
Definition combinedTextOf (textNodes : list TextNode) (i span : nat)
  : jsstring :=
  fold_left (fun acc j => acc ++ content (nodeAt textNodes (i + j)))
            (seq 0 span) [].

(** Lines 112-131: the walk over the window's node lengths, for the window
    offsets [js] still to visit.  It returns [(startNodeIndex,
    endNodeIndex)]; the [break] of line 123 ends it early. *)
Fixpoint locate (textNodes : list TextNode) (i matchStart matchEnd : nat)
    (js : list nat) (charCount startN endN : nat) : nat * nat :=
  match js with
  | [] => (startN, endN)
  | j :: js' =>
    let nodeLen := List.length (content (nodeAt textNodes (i + j))) in
    let nodeEnd := charCount + nodeLen in
    let startN' :=
      if (charCount <=? matchStart) && (matchStart <? nodeEnd)
      then i + j else startN in
    if (charCount <? matchEnd) && (matchEnd <=? nodeEnd)
    then (startN', i + j)
    else
      let endN' :=
        if (charCount <? matchEnd) && (nodeEnd <? matchEnd)
        then i + j else endN in
      locate textNodes i matchStart matchEnd js' nodeEnd startN' endN'
  end.

(** Lines 136-139. *)
Definition offsetOf (textNodes : list TextNode) (i matchStart startN : nat)
  : Z :=
  fold_left
    (fun off j =>
       (off - Z.of_nat (List.length (content (nodeAt textNodes (i + j)))))%Z)
    (seq 0 (startN - i)) (Z.of_nat matchStart).

(** The matcher's state: the claimed indices and the matches so far. *)
Record MatchState := mkMatchState {
  processed : gset nat;
  matches : list Match
}.

Definition has (s : gset nat) (i : nat) : bool := bool_decide (i ∈ s).

(** Lines 153-155. *)
Definition markProcessed (s : gset nat) (startN : nat) (span : Z)
  : gset nat :=
  fold_left (fun acc j => {[ j ]} ∪ acc) (seq startN (Z.to_nat span)) s.

(** Lines 100-161: the loop over the rules for one window.  A rule whose
    original occurs in the window and whose start node is unclaimed is
    recorded and ends the loop; any other rule is passed over.  The test
    [includes] of line 103 holds exactly when [indexOf] of line 105 finds a
    position. *)
Fixpoint tryRules (textNodes : list TextNode) (i span : nat)
    (combinedText : jsstring) (redactions : list Redaction)
    (st : MatchState) : MatchState :=
  match redactions with
  | [] => st
  | item :: rest =>
    match indexOf combinedText (original item) with
    | Some matchStart =>
      let matchEnd := matchStart + List.length (original item) in
      let '(startN, endN) :=
        locate textNodes i matchStart matchEnd (seq 0 span) 0 i i in
      let span' := (Z.of_nat endN - Z.of_nat startN + 1)%Z in
      let offset := offsetOf textNodes i matchStart startN in
      if negb (has (processed st) startN) then
        mkMatchState
          (markProcessed (processed st) startN span')
          (matches st ++
             [mkMatch startN span' (original item) (replacement item) offset])
      else tryRules textNodes i span combinedText rest st
    | None => tryRules textNodes i span combinedText rest st
    end
  end.

(** Lines 93-165: the windows [span = 1 .. min(5, length - i)] that start
    at [i], given as the list [spans]; line 164 ends the loop once [i] is
    claimed. *)
Fixpoint trySpans (textNodes : list TextNode) (i : nat) (spans : list nat)
    (redactions : list Redaction) (st : MatchState) : MatchState :=
  match spans with
  | [] => st
  | span :: spans' =>
    let st' :=
      tryRules textNodes i span (combinedTextOf textNodes i span)
               redactions st in
    if has (processed st') i then st'
    else trySpans textNodes i spans' redactions st'
  end.

(** Lines 88-166: the loop over the window starts [starts]. *)
Fixpoint scanNodes (textNodes : list TextNode) (starts : list nat)
    (redactions : list Redaction) (st : MatchState) : MatchState :=
  match starts with
  | [] => st
  | i :: starts' =>
    if has (processed st) i
    then scanNodes textNodes starts' redactions st
    else
      let spans := seq 1 (Nat.min 5 (List.length textNodes - i)) in
      scanNodes textNodes starts' redactions
                (trySpans textNodes i spans redactions st)
  end.

(** Lines 84-166: the matches of one pass, in the order they are found. *)
Definition findMatches (textNodes : list TextNode)
    (redactions : list Redaction) : list Match :=
  matches (scanNodes textNodes (seq 0 (List.length textNodes)) redactions
                     (mkMatchState ∅ [])).

(* ===================================================================== *)
(** ** Markup splicer *)
(* ===================================================================== *)

(** [textNodes[k]] for a numeric index. *)
Definition nodeAtZ (textNodes : list TextNode) (k : Z) : TextNode :=
  nodeAt textNodes (Z.to_nat k).

(** Lines 264-292: the callback of the block rewrite.  Its state is the
    counter [nodeIndex]; [charIndex] is never read. *)
Definition blockCallback (textNodes : list TextNode) (startIdx : nat)
    (tSpan offset : Z) (replacementText : jsstring)
    (xmlBlock : jsstring) (blockStart : nat)
    (firstTNode lastTNode : TextNode)
    (nodeIndex : nat) (openTag body : jsstring) : jsstring * nat :=
  let matched := openTag ++ body ++ T_CLOSE in
  match indexOf xmlBlock matched with
  | None => (matched, nodeIndex)
  | Some matchPosInBlock =>
    let absolutePos := blockStart + matchPosInBlock in
    let isFirstNode :=
      (startIndex firstTNode <=? absolutePos)
      && (absolutePos <? endIndex firstTNode) in
    let isLastNode :=
      (startIndex lastTNode <=? absolutePos)
      && (absolutePos <? endIndex lastTNode) in
    let isMiddleNode :=
      negb isFirstNode && negb isLastNode
      && (0 <? nodeIndex) && (Z.of_nat nodeIndex <? tSpan - 1)%Z in
    if isFirstNode || isLastNode || isMiddleNode then
      if nodeIndex =? 0 then
        let firstNode := nodeAt textNodes startIdx in
        let prefix := substring (content firstNode) 0 (Z.to_nat offset) in
        (replaceStr matched body (prefix ++ replacementText), S nodeIndex)
      else (replaceStr matched body [], S nodeIndex)
    else (matched, nodeIndex)
  end.

(** Lines 228-257: the region [blockStart, blockEnd) rewritten for a match
    over several nodes.  Line 242 takes [substring(firstREndPos,
    lastTNode.endIndex)] with the larger position first, which [substring]
    swaps; [lastRStart] is assigned in lines 239 and 246 and never read. *)
Definition blockBounds (xmlContent : jsstring) (firstTNode lastTNode : TextNode)
  : nat * nat :=
  let beforeFirstT := substring xmlContent 0 (startIndex firstTNode) in
  let firstRStart :=
    match lastIndexOf beforeFirstT R_OPEN with
    | Some p => p
    | None => startIndex firstTNode
    end in
  let afterLastT := substringFrom xmlContent (endIndex lastTNode) in
  let firstREnd :=
    match indexOf afterLastT R_CLOSE with Some p => p | None => 0 end in
  let firstREndPos := endIndex lastTNode + firstREnd + 6 in
  let betweenRuns := substring xmlContent firstREndPos (endIndex lastTNode) in
  let lastREndPos :=
    if includes betweenRuns R_OPEN && includes betweenRuns R_CLOSE then
      let afterLastT2 := substringFrom xmlContent (endIndex lastTNode) in
      let lastREnd :=
        match indexOf afterLastT2 R_CLOSE with Some p => p | None => 0 end in
      endIndex lastTNode + lastREnd + 6
    else firstREndPos in
  (firstRStart, lastREndPos).

(** Lines 194-295.  [fullContent] and [newFullContent] of lines 220-226
    are computed and never read. *)
Definition performCrossTagReplace (xmlContent : jsstring)
    (textNodes : list TextNode) (startIdx : nat) (tSpan offset : Z)
    (originalText replacementText : jsstring) : jsstring :=
  let firstTNode := nodeAt textNodes startIdx in
  let lastTNode := nodeAtZ textNodes (Z.of_nat startIdx + tSpan - 1) in
  if (tSpan =? 1)%Z then
    let node := firstTNode in
    let nodeContent := content node in
    if (offset =? 0)%Z then
      let newContent := replaceStr nodeContent originalText replacementText in
      let newNodeTag := replaceStr (fullMatch node) nodeContent newContent in
      substring xmlContent 0 (startIndex node) ++ newNodeTag
        ++ substringFrom xmlContent (endIndex node)
    else
      let prefix := substring nodeContent 0 (Z.to_nat offset) in
      let suffix :=
        substringFrom nodeContent
          (Z.to_nat (offset + Z.of_nat (List.length originalText))) in
      let newContent := prefix ++ replacementText ++ suffix in
      let newNodeTag := replaceStr (fullMatch node) nodeContent newContent in
      substring xmlContent 0 (startIndex node) ++ newNodeTag
        ++ substringFrom xmlContent (endIndex node)
  else
    let fullContent :=
      fold_left (fun acc k => acc ++ content (nodeAt textNodes (startIdx + k)))
                (seq 0 (Z.to_nat tSpan)) [] in
    let newFullContent := replaceStr fullContent originalText replacementText in
    let '(blockStart, blockEnd) :=
      blockBounds xmlContent firstTNode lastTNode in
    let xmlBlock := substring xmlContent blockStart blockEnd in
    let newXmlBlock :=
      replaceTTags
        (blockCallback textNodes startIdx tSpan offset replacementText
                       xmlBlock blockStart firstTNode lastTNode)
        xmlBlock 0 0 in
    substring xmlContent 0 blockStart ++ newXmlBlock
      ++ substringFrom xmlContent blockEnd.

(* ===================================================================== *)
(** ** One pass, the iteration driver and the residual pass *)
(* ===================================================================== *)

(** Lines 168-180: the matches are spliced from the last found to the
    first, each against the node list of the markup the pass started
    with. *)
Definition applyMatches (xmlContent : jsstring) (textNodes : list TextNode)
    (ms : list Match) : jsstring :=
  match ms with
  | [] => xmlContent
  | _ :: _ =>
    fold_left
      (fun result m =>
         performCrossTagReplace result textNodes (startNodeIndex m)
           (actualSpan m) (offsetInFirstNode m)
           (m_original m) (m_replacement m))
      (rev ms) xmlContent
  end.

(** [handleCrossTagReplacement], with the state of its pattern object:
    [re] is the state the object is in when line 72 is reached. *)
Definition handleCrossTagReplacementSt (re : RegExp) (xmlContent : jsstring)
    (redactions : list Redaction) : jsstring * RegExp :=
  let '(textNodes, re') := extractTextNodes re xmlContent in
  (applyMatches xmlContent textNodes (findMatches textNodes redactions), re').

(** The pattern is a literal of the function body: a call starts with a
    new pattern object, whose [lastIndex] is 0. *)
Definition handleCrossTagReplacement (xmlContent : jsstring)
    (redactions : list Redaction) : jsstring :=
  fst (handleCrossTagReplacementSt (mkRegExp 0) xmlContent redactions).

Definition maxIterations : nat := 100.

(** The two states of the iteration driver. *)
Inductive DriverState :=
| RUNNING (result : jsstring) (iteration : nat)
| DONE (result : jsstring) (iteration : nat).

Definition driverResult (s : DriverState) : jsstring :=
  match s with RUNNING r _ | DONE r _ => r end.

Section Driver.

(** The pass run by the driver, over whatever state [W] it carries from
    one call to the next. *)
Context {W : Type}.
Variable pass : W -> jsstring -> jsstring * W.

(** One turn of the [do ... while] of lines 33-45. *)
Definition driverStep (w : W) (s : DriverState) : DriverState * W :=
  match s with
  | RUNNING result iteration =>
    let beforeLength := List.length result in
    let '(result', w') := pass w result in
    let afterLength := List.length result' in
    let hasCrossTagMatch := negb (beforeLength =? afterLength) in
    let iteration' := S iteration in
    if hasCrossTagMatch && (iteration' <? maxIterations)
    then (RUNNING result' iteration', w')
    else (DONE result' iteration', w')
  | DONE result iteration => (DONE result iteration, w)
  end.

(** The driver run for at most [fuel] turns. *)
Fixpoint driverRun (fuel : nat) (w : W) (s : DriverState)
  : DriverState * W :=
  match fuel with
  | O => (s, w)
  | S fuel' =>
    match s with
    | RUNNING _ _ =>
      let '(s', w') := driverStep w s in driverRun fuel' w' s'
    | DONE _ _ => (s, w)
    end
  end.

End Driver.

(** Lines 50-53 for one rule: every text leaf's content is split at the
    rule's original and joined with its replacement. *)
Definition residualRule (item : Redaction) (result : jsstring) : jsstring :=
  replaceTTags
    (fun (_ : unit) openTag body =>
       (openTag ++ join (split body (original item)) (replacement item)
          ++ T_CLOSE, tt))
    result 0 tt.

(** Lines 48-54. *)
Definition residualPass (result : jsstring) (redactions : list Redaction)
  : jsstring :=
  fold_left (fun r item => residualRule item r) redactions result.

(** Lines 28-45: the state the driver stops in.  At most [maxIterations]
    turns can be taken, so that much fuel runs the loop to its end (see
    [iterateSt_done]). *)
Definition iterateSt (re : RegExp) (xmlContent : jsstring)
    (redactions : list Redaction) : DriverState * RegExp :=
  driverRun (fun re r => handleCrossTagReplacementSt re r redactions)
            maxIterations re (RUNNING xmlContent 0).

(** [replaceInXML], with the state of the pattern object threaded through
    the passes. *)
Definition replaceInXMLSt (re : RegExp) (xmlContent : jsstring)
    (redactions : list Redaction) : jsstring * RegExp :=
  let '(s, re') := iterateSt re xmlContent redactions in
  (residualPass (driverResult s) redactions, re').

Definition replaceInXML (xmlContent : jsstring) (redactions : list Redaction)
  : jsstring :=
  fst (replaceInXMLSt (mkRegExp 0) xmlContent redactions).

(* ===================================================================== *)
(** ** The archive driver *)
(* ===================================================================== *)

(** Line 308: a copy of the rules sorted by descending length of the
    original.  [Array.prototype.sort] is stable: rules of equal length keep
    the order they were given in. *)
Fixpoint insertByLength (x : Redaction) (l : list Redaction)
  : list Redaction :=
  match l with
  | [] => [x]
  | y :: l' =>
    if List.length (original x) <? List.length (original y)
    then y :: insertByLength x l'
    else x :: l
  end.

Fixpoint sortRedactions (l : list Redaction) : list Redaction :=
  match l with
  | [] => []
  | x :: l' => insertByLength x (sortRedactions l')
  end.

(** The archive object as the engine sees it: entry names with their text.
    The archive library is not part of the repository; an entry is read as
    its text and [addFile] replaces the data of an entry of the same name
    or adds a new entry at the end. *)
Definition Zip := list (jsstring * jsstring).

(** Lines 320 and 328 store [Buffer.from(text, 'utf-8')], and a later
    [readAsText] decodes these bytes: a high surrogate followed by a low
    one is kept as the pair it is, any other surrogate code unit comes
    back as U+FFFD, and every other code unit is kept. *)
Definition isHighSurrogate (c : N) : bool :=
  ((55296 <=? c) && (c <=? 56319))%N.

Definition isLowSurrogate (c : N) : bool :=
  ((56320 <=? c) && (c <=? 57343))%N.

Fixpoint utf8RoundTrip (s : jsstring) : jsstring :=
  match s with
  | [] => []
  | c :: s' =>
    if isHighSurrogate c then
      match s' with
      | d :: s'' =>
        if isLowSurrogate d then c :: d :: utf8RoundTrip s''
        else 65533%N :: utf8RoundTrip s'
      | [] => [65533%N]
      end
    else if isLowSurrogate c then 65533%N :: utf8RoundTrip s'
    else c :: utf8RoundTrip s'
  end.

Definition readAsText (zip : Zip) (name : jsstring) : jsstring :=
  match find (fun e => eqs (fst e) name) zip with
  | Some e => snd e
  | None => []
  end.

Definition addFile (zip : Zip) (name data : jsstring) : Zip :=
  if existsb (fun e => eqs (fst e) name) zip
  then List.map (fun e => if eqs (fst e) name then (fst e, data) else e) zip
  else zip ++ [(name, data)].

Definition DOCUMENT_XML : jsstring := Eval cbv in str "word/document.xml".
Definition HEADER_DIR : jsstring := Eval cbv in str "word/header/".
Definition FOOTER_DIR : jsstring := Eval cbv in str "word/footer/".

(** Lines 303-330, without the console output: the archive object that
    line 333 hands to [writeZip].  How [writeZip] lays the entries out in
    the output file, their order there included, is the archive library's
    and is not modelled. *)
Definition processDocx (zip : Zip) (redactions : list Redaction) : Zip :=
  let sortedRedactions := sortRedactions redactions in
  let documentXml := readAsText zip DOCUMENT_XML in
  let documentXml' := replaceInXML documentXml sortedRedactions in
  let zip1 := addFile zip DOCUMENT_XML (utf8RoundTrip documentXml') in
  fold_left
    (fun z entry =>
       let entryName := fst entry in
       if startsWith HEADER_DIR entryName || startsWith FOOTER_DIR entryName
       then addFile z entryName
                    (utf8RoundTrip
                       (replaceInXML (readAsText z entryName) redactions))
       else z)
    zip1 zip1.

(* ===================================================================== *)
(** ** Notions used to state the properties *)
(* ===================================================================== *)

(** The contents of the text leaves of a markup string, in document
    order. *)
Definition leafContents (xml : jsstring) : list jsstring :=
  List.map content (execAll xml 0 0).

(** The text nodes of a markup string as a pass extracts them. *)
Definition textNodesOf (xml : jsstring) : list TextNode :=
  fst (extractTextNodes (mkRegExp 0) xml).

(** The last fragment index of a match:
    [startNodeIndex + actualSpan - 1]. *)
Definition lastNodeIndex (m : Match) : Z :=
  (Z.of_nat (startNodeIndex m) + actualSpan m - 1)%Z.

(** What makes a match safe to splice: its first and its last node
    exist. *)
Definition inNodes (textNodes : list TextNode) (m : Match) : Prop :=
  startNodeIndex m < List.length textNodes
  /\ (0 <= lastNodeIndex m < Z.of_nat (List.length textNodes))%Z.

(** Fragment [k] lies in the index range of [m]. *)
Definition inRange (m : Match) (k : nat) : bool :=
  (Z.of_nat (startNodeIndex m) <=? Z.of_nat k)%Z
  && (Z.of_nat k <=? lastNodeIndex m)%Z.

(** The index ranges of two matches have no fragment in common. *)
Definition rangesDisjoint (m1 m2 : Match) : bool :=
  (lastNodeIndex m1 <? Z.of_nat (startNodeIndex m2))%Z
  || (lastNodeIndex m2 <? Z.of_nat (startNodeIndex m1))%Z.

(** The run markers of a markup string are balanced: read from left to
    right, every [</w:r>] closes a [<w:r>] that is open, and none stays
    open at the end.  [runDepth s d] is the number of runs open after [s]
    when [d] were open before it, if no closing marker came too early. *)
Fixpoint runDepth (s : jsstring) (depth : nat) : option nat :=
  match s with
  | [] => Some depth
  | _ :: s' =>
    if startsWith R_OPEN s then runDepth s' (S depth)
    else if startsWith R_CLOSE s then
      match depth with
      | O => None
      | S d => runDepth s' d
      end
    else runDepth s' depth
  end.

Definition balanced (s : jsstring) : bool :=
  match runDepth s 0 with
  | Some O => true
  | _ => false
  end.

(** The markup after [k] passes of [handleCrossTagReplacement]. *)
Definition afterPasses (redactions : list Redaction) (k : nat)
    (xmlContent : jsstring) : jsstring :=
  Nat.iter k (fun r => handleCrossTagReplacement r redactions) xmlContent.

(** A rule by its two texts. *)
Definition rule (originalText replacementText : string) : Redaction :=
  mkRedaction (str originalText) (str replacementText).

(* ===================================================================== *)
(** ** Inputs of the worked cases *)
(* ===================================================================== *)

(** Three runs holding [A], [BCD] and [E], and two rules in descending
    order of length. *)
Definition overlapMarkup : jsstring :=
  str "<w:r><w:t>A</w:t></w:r><w:r><w:t>BCD</w:t></w:r><w:r><w:t>E</w:t></w:r>".

Definition overlapRules : list Redaction := [rule "BCD" "P"; rule "AB" "Q"].

(** The name [Scott] split over two runs, [Scot] and [t]. *)
Definition scottMarkup : jsstring :=
  str "<w:r><w:t>Scot</w:t></w:r><w:r><w:t>t</w:t></w:r>".

(** One run whose text is the letter [t]. *)
Definition letterMarkup : jsstring := str "<w:r><w:t>t</w:t></w:r>".

(** One run whose text is [ab], and two runs [ab] and [c]. *)
Definition abMarkup : jsstring := str "<w:r><w:t>ab</w:t></w:r>".

Definition abcMarkup : jsstring :=
  str "<w:r><w:t>ab</w:t></w:r><w:r><w:t>c</w:t></w:r>".

(** A paragraph with two text leaves and no run marker. *)
Definition noRunMarkup : jsstring :=
  str "<w:p><w:t>ab</w:t><w:t>cd</w:t></w:p>".

(** One run whose text is [A]. *)
Definition partyMarkup : jsstring := str "<w:r><w:t>A</w:t></w:r>".

(** An archive whose document and whose header hold the same run, and the
    rules of the longest-rule-first example in the order shorter first. *)
Definition companyMarkup : jsstring := str "<w:r><w:t>示例公司</w:t></w:r>".

Definition companyZip : Zip :=
  [(DOCUMENT_XML, companyMarkup);
   (str "word/header/header1.xml", companyMarkup)].

Definition companyRules : list Redaction :=
  [rule "公司" "A"; rule "示例公司" "B"].

(* ===================================================================== *)
(** ** Further notions: extractor, matcher, rule order, whitelist *)
(* ===================================================================== *)

(** The text nodes of [l] lie one after the other from position [lo] on:
    each starts at or after the end of the one before and is not empty. *)
Fixpoint nodesInOrder (lo : nat) (l : list TextNode) : Prop :=
  match l with
  | [] => True
  | n :: l' =>
    lo <= startIndex n /\ startIndex n < endIndex n
    /\ nodesInOrder (endIndex n) l'
  end.

(** A text node as it is cut out of the markup [xml]: its text is the part
    of the markup between its two positions and consists of an opening tag
    that starts with [<w:t] and ends with its only [>], a content without
    [<], and the closing tag. *)
Definition nodeOf (xml : jsstring) (n : TextNode) : Prop :=
  exists attrs,
    fullMatch n = (T_OPEN ++ attrs ++ [GT]) ++ content n ++ T_CLOSE
    /\ Forall (fun c => c <> GT) attrs
    /\ Forall (fun c => c <> LT) (content n)
    /\ endIndex n = startIndex n + List.length (fullMatch n)
    /\ endIndex n <= List.length xml
    /\ substring xml (startIndex n) (endIndex n) = fullMatch n.

(** The length of the text of the first [j] nodes of the window at [i]. *)
Definition windowLength (textNodes : list TextNode) (i j : nat) : nat :=
  List.length (combinedTextOf textNodes i j).

(** A match says where its original is.  It spans between one and five
    nodes that exist; the text of these nodes, one after the other, holds
    the original at the offset the match names; the original starts inside
    the first of these nodes and ends inside the last; and its two texts
    are those of a rule of the list. *)
Definition matchSound (textNodes : list TextNode)
    (redactions : list Redaction) (m : Match) : Prop :=
  (1 <= actualSpan m <= 5)%Z
  /\ startNodeIndex m + Z.to_nat (actualSpan m) <= List.length textNodes
  /\ In (mkRedaction (m_original m) (m_replacement m)) redactions
  /\ exists a b,
      combinedTextOf textNodes (startNodeIndex m) (Z.to_nat (actualSpan m))
      = a ++ m_original m ++ b
      /\ offsetInFirstNode m = Z.of_nat (List.length a)
      /\ List.length a
         < List.length (content (nodeAt textNodes (startNodeIndex m)))
      /\ List.length b
         < List.length
             (content (nodeAt textNodes
                         (startNodeIndex m + Z.to_nat (actualSpan m) - 1))).

(** The start node of every match recorded so far is claimed, and no two
    matches start in the same node. *)
Definition claimedStarts (st : MatchState) : Prop :=
  Forall (fun m => has (processed st) (startNodeIndex m) = true) (matches st)
  /\ NoDup (List.map startNodeIndex (matches st)).

(** The markup with the content of every text leaf rewritten by [g]: the
    replacement of the residual pass with the callback of lines 50-53 for
    any rewriting of the content. *)
Definition rewriteLeaves (g : jsstring -> jsstring) (xml : jsstring)
  : jsstring :=
  replaceTTags (fun (_ : unit) openTag body => (openTag ++ g body ++ T_CLOSE, tt))
               xml 0 tt.

(** The markup with every text leaf emptied: what is left is the markup
    outside the contents of the leaves. *)
Definition emptyLeaves (xml : jsstring) : jsstring :=
  rewriteLeaves (fun _ => []) xml.

(** Line 51: what one rule makes of a content. *)
Definition applyRule (item : Redaction) (body : jsstring) : jsstring :=
  join (split body (original item)) (replacement item).

(** The rules are in descending order of the length of the original. *)
Fixpoint descendingLength (l : list Redaction) : Prop :=
  match l with
  | [] => True
  | x :: l' =>
    Forall (fun y => List.length (original y) <= List.length (original x)) l'
    /\ descendingLength l'
  end.

(** The rules of [l] whose original has length [k], in the order of [l]. *)
Definition rulesOfLength (k : nat) (l : list Redaction) : list Redaction :=
  List.filter (fun r => List.length (original r) =? k) l.

(** Lines 257-294 for a region of the markup given by its two positions:
    the region is cut out, its text leaves are rewritten by the callback,
    and the result is put between the markup before the region and the
    markup behind it. *)
Definition spliceRegion (xmlContent : jsstring) (textNodes : list TextNode)
    (startIdx : nat) (tSpan offset : Z) (replacementText : jsstring)
    (blockStart blockEnd : nat) : jsstring :=
  let firstTNode := nodeAt textNodes startIdx in
  let lastTNode := nodeAtZ textNodes (Z.of_nat startIdx + tSpan - 1) in
  let xmlBlock := substring xmlContent blockStart blockEnd in
  substring xmlContent 0 blockStart
    ++ replaceTTags
         (blockCallback textNodes startIdx tSpan offset replacementText
                        xmlBlock blockStart firstTNode lastTNode)
         xmlBlock 0 0
    ++ substringFrom xmlContent blockEnd.

(** The text [t] reaches to the end of a leaf of content [body]: it holds
    the [>] of the leaf's opening tag with all that follows it in the leaf,
    or it starts inside the leaf's content or closing tag. *)
Definition endsLeaf (body t : jsstring) : Prop :=
  (exists u, t = u ++ GT :: body ++ T_CLOSE)
  \/ (exists p, p ++ t = body ++ T_CLOSE).

(** No code unit of [s] is a dollar sign: as a replacement template, [s]
    stands for itself. *)
Definition noDollar (s : jsstring) : Prop := Forall (fun c => c <> DOLLAR) s.

(** Lines 199-207 at a node, for the match of an empty original: the
    splice of the one leaf with span 1 and offset 0. *)
Definition spliceEmptyAt (replacementText : jsstring) (xmlContent : jsstring)
    (node : TextNode) : jsstring :=
  let newContent := replaceStr (content node) [] replacementText in
  let newNodeTag := replaceStr (fullMatch node) (content node) newContent in
  substring xmlContent 0 (startIndex node) ++ newNodeTag
    ++ substringFrom xmlContent (endIndex node).

(** The coverage check of the whitelist, as given with the storage format
    of [redaction_whitelist]: the content contains an item of the whitelist
    or is contained in one. *)
Fixpoint isCoveredByWhitelist (whitelist : list jsstring) (body : jsstring)
  : bool :=
  match whitelist with
  | [] => false
  | item :: rest =>
    if includes body item || includes item body then true
    else isCoveredByWhitelist rest body
  end.

(* ===================================================================== *)
(** ** Facts about the string primitives *)
(* ===================================================================== *)

Section StringFacts.

Lemma startsWith_true (p s : jsstring) :
  startsWith p s = true <-> exists r, s = p ++ r.
Proof.
  revert s; induction p as [|c p IH]; intros s; simpl.
  - split; [intros _; exists s; reflexivity | reflexivity].
  - destruct s as [|d s]; simpl.
    + split; [discriminate | intros [r Hr]; discriminate].
    + rewrite andb_true_iff, N.eqb_eq, IH. split.
      * intros [-> [r ->]]. exists r. reflexivity.
      * intros [r Hr]. injection Hr as -> ->. split; eauto.
Qed.

Lemma indexOf_nil (s : jsstring) : indexOf s [] = Some 0.
Proof. destruct s; reflexivity. Qed.

Lemma includes_false_indexOf (s pat : jsstring) :
  includes s pat = false -> indexOf s pat = None.
Proof. unfold includes. destruct (indexOf s pat); [discriminate | reflexivity]. Qed.

(** No occurrence at all means no occurrence at the head of any suffix. *)
Lemma indexOfFrom_None_cons (pat : jsstring) (c : N) (s : jsstring) (pos : nat) :
  indexOfFrom pat (c :: s) pos = None ->
  startsWith pat (c :: s) = false /\ indexOfFrom pat s (S pos) = None.
Proof.
  cbn [indexOfFrom]. destruct (startsWith pat (c :: s)); [discriminate|].
  intros H; split; [reflexivity | exact H].
Qed.

Lemma lastIndexOfFrom_bounds (pat s : jsstring) (pos : nat)
      (found : option nat) (p : nat) :
  (forall q, found = Some q -> q <= pos + List.length s) ->
  lastIndexOfFrom pat s pos found = Some p -> p <= pos + List.length s.
Proof.
  revert pos found; induction s as [|c s IH]; intros pos found Hf;
    cbn [lastIndexOfFrom].
  - destruct (startsWith pat []).
    + intros [= <-]. lia.
    + intros H. apply Hf in H. exact H.
  - intros H. apply IH in H; [simpl; lia|].
    intros q. destruct (startsWith pat (c :: s)).
    + intros [= <-]. lia.
    + intros Hq. apply Hf in Hq. simpl in Hq. lia.
Qed.

Lemma lastIndexOf_le (s pat : jsstring) (p : nat) :
  lastIndexOf s pat = Some p -> p <= List.length s.
Proof.
  unfold lastIndexOf. intros H.
  apply lastIndexOfFrom_bounds in H; [exact H | discriminate].
Qed.

Lemma substring_length_le (s : jsstring) (a b : nat) :
  List.length (substring s a b) <= Nat.max a b.
Proof.
  unfold substring. rewrite length_firstn, length_skipn. lia.
Qed.

Lemma substring_0_length (s : jsstring) (b : nat) :
  List.length (substring s 0 b) <= b.
Proof. pose proof (substring_length_le s 0 b). lia. Qed.

(** Splitting at a separator that does not occur gives the one piece. *)
Lemma splitAux_no_occurrence (sep s cur : jsstring) (pos : nat) :
  indexOfFrom sep s pos = None ->
  splitAux sep s 0 cur = [rev cur ++ s].
Proof.
  revert cur pos; induction s as [|c s IH]; intros cur pos H.
  - simpl. rewrite app_nil_r. reflexivity.
  - apply indexOfFrom_None_cons in H as [Hh Ht].
    cbn [splitAux]. rewrite Hh.
    rewrite (IH (c :: cur) (S pos) Ht). simpl.
    rewrite <- app_assoc. reflexivity.
Qed.

Lemma split_join_no_occurrence (s sep rep : jsstring) :
  includes s sep = false -> join (split s sep) rep = s.
Proof.
  intros H. apply includes_false_indexOf in H.
  destruct sep as [|x sep].
  - rewrite indexOf_nil in H. discriminate.
  - unfold split. unfold indexOf in H.
    rewrite (splitAux_no_occurrence _ _ [] 0 H). reflexivity.
Qed.

(** Splitting at the empty separator and joining puts the glue between
    any two code units. *)
Lemma split_join_empty_cons (c d : N) (s rep : jsstring) :
  join (split (c :: d :: s) []) rep
  = c :: rep ++ join (split (d :: s) []) rep.
Proof. reflexivity. Qed.

Lemma split_join_empty_length (s rep : jsstring) :
  List.length (join (split s []) rep)
  = List.length s + (List.length s - 1) * List.length rep.
Proof.
  induction s as [|c [|d s] IH]; [reflexivity | reflexivity |].
  rewrite split_join_empty_cons. cbn [List.length].
  rewrite length_app, IH. cbn [List.length].
  rewrite !Nat.sub_succ, !Nat.sub_0_r. simpl. lia.
Qed.

End StringFacts.

(* ===================================================================== *)
(** ** Facts about the text-leaf pattern *)
(* ===================================================================== *)

Section PatternFacts.

Lemma spanWhile_app (p : N -> bool) (s a b : jsstring) :
  spanWhile p s = (a, b) -> s = a ++ b.
Proof.
  revert a b; induction s as [|c s IH]; intros a b; simpl.
  - intros [= <- <-]. reflexivity.
  - destruct (p c).
    + destruct (spanWhile p s) as [a' b'] eqn:E.
      intros [= <- <-]. simpl. f_equal. apply IH. reflexivity.
    + intros [= <- <-]. reflexivity.
Qed.

Lemma spanWhile_stop (p : N -> bool) (s a b : jsstring) (c : N) :
  spanWhile p s = (a, c :: b) -> p c = false.
Proof.
  revert a; induction s as [|d s IH]; intros a; simpl.
  - discriminate.
  - destruct (p d) eqn:Hp.
    + destruct (spanWhile p s) as [a' b'] eqn:E.
      intros [= _ ->]. eapply IH. reflexivity.
    + intros [= _ -> _]. exact Hp.
Qed.

(** A match is a prefix of the text it is found in. *)
Lemma matchTTag_prefix (s openTag body : jsstring) :
  matchTTag s = Some (openTag, body) ->
  exists rest, s = (openTag ++ body ++ T_CLOSE) ++ rest.
Proof.
  unfold matchTTag.
  destruct (startsWith T_OPEN s) eqn:Ho; [|discriminate].
  apply startsWith_true in Ho as [r1 ->].
  change (skipn (List.length T_OPEN) (T_OPEN ++ r1)) with r1.
  destruct (spanWhile notGT r1) as [attrs r2] eqn:E1.
  destruct r2 as [|g r3]; [discriminate|].
  destruct (spanWhile notLT r3) as [bd r4] eqn:E2.
  destruct (startsWith T_CLOSE r4) eqn:Hc; [|discriminate].
  apply startsWith_true in Hc as [rest ->].
  intros [= <- <-]. exists rest.
  assert (Hg : g = GT).
  { eapply spanWhile_stop in E1. unfold notGT in E1.
    apply negb_false_iff, N.eqb_eq in E1. exact E1. }
  subst g.
  apply spanWhile_app in E1 as ->. apply spanWhile_app in E2 as ->.
  unfold T_OPEN. simpl. rewrite <- !app_assoc. reflexivity.
Qed.

Lemma T_CLOSE_length : List.length T_CLOSE = 6.
Proof. reflexivity. Qed.

(** A [lastIndex] at or before the current position has no effect. *)
Lemma execAll_past (s : jsstring) (pos li li' : nat) :
  li <= pos -> li' <= pos -> execAll s pos li = execAll s pos li'.
Proof.
  revert pos li li'; induction s as [|c s IH]; intros pos li li' H H';
    [reflexivity|].
  cbn [execAll].
  assert (E : (pos <? li) = false) by (apply Nat.ltb_ge; lia).
  assert (E' : (pos <? li') = false) by (apply Nat.ltb_ge; lia).
  rewrite E, E'.
  destruct (matchTTag (c :: s)) as [[o b]|]; [reflexivity|].
  apply IH; lia.
Qed.

(** A callback that returns every match it is given unchanged leaves the
    text as it is: what [replaceTTags] returns for the suffix [s] is [s]
    without the [skip] code units already copied. *)
Lemma replaceTTags_id {St : Type}
      (cb : St -> jsstring -> jsstring -> jsstring * St)
      (P : jsstring -> Prop) :
  (forall st o b, P b -> fst (cb st o b) = o ++ b ++ T_CLOSE) ->
  forall s pos skip st,
    Forall (fun n => P (content n)) (execAll s pos (pos + skip)) ->
    replaceTTags cb s skip st = skipn skip s.
Proof.
  intros Hcb. induction s as [|c s IH]; intros pos skip st HF.
  - destruct skip; reflexivity.
  - destruct skip as [|k].
    + cbn [replaceTTags execAll skipn] in *.
      rewrite Nat.add_0_r, Nat.ltb_irrefl in HF.
      destruct (matchTTag (c :: s)) as [[o b]|] eqn:Hm.
      * inversion HF as [|n l Hn Hl]; subst. cbn [content] in Hn.
        specialize (Hcb st o b Hn).
        destruct (cb st o b) as [out st'] eqn:Ecb. cbn [fst] in Hcb. subst out.
        destruct (matchTTag_prefix _ _ _ Hm) as [rest Hrest].
        set (full := o ++ b ++ T_CLOSE) in *.
        assert (Hlen : 1 <= List.length full).
        { unfold full. rewrite !length_app, T_CLOSE_length. lia. }
        rewrite (IH (S pos) (List.length full - 1) st').
        -- destruct full as [|f full']; [simpl in Hlen; lia|].
           simpl in Hrest. injection Hrest as -> ->.
           cbn [List.length]. rewrite Nat.sub_succ, Nat.sub_0_r.
           rewrite skipn_app, skipn_all, Nat.sub_diag. reflexivity.
        -- replace (S pos + (List.length full - 1)) with (pos + List.length full) by lia.
           exact Hl.
      * f_equal. rewrite (IH (S pos) 0 st); [reflexivity|].
        rewrite Nat.add_0_r.
        rewrite (execAll_past s (S pos) (S pos) pos) by lia. exact HF.
    + cbn [replaceTTags execAll skipn] in *.
      assert (Hlt : (pos <? pos + S k) = true) by (apply Nat.ltb_lt; lia).
      rewrite Hlt in HF.
      apply (IH (S pos) k st).
      replace (S pos + k) with (pos + S k) by lia. exact HF.
Qed.

End PatternFacts.

(* ===================================================================== *)
(** ** Facts about the residual pass *)
(* ===================================================================== *)

Section ResidualFacts.

(** A rule whose original occurs in no leaf changes nothing. *)
Lemma residualRule_no_occurrence (item : Redaction) (xml : jsstring) :
  Forall (fun c => includes c (original item) = false) (leafContents xml) ->
  residualRule item xml = xml.
Proof.
  intros H. unfold residualRule.
  rewrite (replaceTTags_id _ (fun c => includes c (original item) = false))
    with (pos := 0).
  - reflexivity.
  - intros [] o b Hb. cbn [fst].
    rewrite (split_join_no_occurrence _ _ _ Hb). reflexivity.
  - unfold leafContents in H. rewrite Forall_map in H. exact H.
Qed.

Lemma residualPass_no_occurrence (redactions : list Redaction)
      (xml : jsstring) :
  Forall (fun item =>
            Forall (fun c => includes c (original item) = false)
                   (leafContents xml)) redactions ->
  residualPass xml redactions = xml.
Proof.
  unfold residualPass. induction redactions as [|item rest IH]; intros H.
  - reflexivity.
  - inversion H as [|? ? Hi Hr]; subst. cbn [fold_left].
    rewrite (residualRule_no_occurrence _ _ Hi). apply IH. exact Hr.
Qed.

End ResidualFacts.

(* ===================================================================== *)
(** ** Facts about the iteration driver *)
(* ===================================================================== *)

Section DriverFacts.

Context {W : Type}.
Variable pass : W -> jsstring -> jsstring * W.

(** The markup a pass returns does not depend on the state it runs in. *)
Variable f : jsstring -> jsstring.
Hypothesis pass_result : forall w r, fst (pass w r) = f r.

(** A turn ends the loop exactly when the pass kept the length or the
    counter has reached the cap. *)
Lemma driverStep_done (w : W) (r : jsstring) (n : nat) :
  (exists r' n', fst (driverStep pass w (RUNNING r n)) = DONE r' n')
  <-> (List.length (f r) = List.length r \/ maxIterations <= S n).
Proof.
  unfold driverStep. specialize (pass_result w r).
  destruct (pass w r) as [r' w']. cbn [fst] in *. subst r'.
  destruct (List.length r =? List.length (f r)) eqn:E; cbn [negb andb].
  - apply Nat.eqb_eq in E. split; [intros _; left; lia | eauto].
  - apply Nat.eqb_neq in E.
    destruct (S n <? maxIterations) eqn:E2; cbn [fst].
    + apply Nat.ltb_lt in E2. split.
      * intros (? & ? & ?). discriminate.
      * intros [?|?]; lia.
    + apply Nat.ltb_ge in E2. split; [intros _; right; exact E2 | eauto].
Qed.

(** With enough fuel to reach the cap the driver stops in [DONE], after
    [k] passes: each pass but the last changed the length, and the last
    one kept it or was the one that reached the cap. *)
Lemma driverRun_done (fuel : nat) :
  forall w r n,
    n < maxIterations -> maxIterations <= n + fuel ->
    exists k w',
      1 <= k /\ n + k <= maxIterations /\
      driverRun pass fuel w (RUNNING r n) = (DONE (Nat.iter k f r) (n + k), w') /\
      (forall j, S j < k ->
            List.length (Nat.iter (S j) f r) <> List.length (Nat.iter j f r)) /\
      (n + k = maxIterations
       \/ List.length (Nat.iter k f r) = List.length (Nat.iter (k - 1) f r)).
Proof.
  induction fuel as [|fuel IH]; intros w r n Hn Hf; [lia|].
  cbn [driverRun driverStep].
  pose proof (pass_result w r) as Hp.
  destruct (pass w r) as [r' w'] eqn:Ep. cbn [fst] in Hp. subst r'.
  destruct (List.length r =? List.length (f r)) eqn:E; cbn [negb andb].
  - apply Nat.eqb_eq in E.
    exists 1, w'. cbn [Nat.iter nat_rect].
    replace (n + 1) with (S n) by lia.
    destruct fuel; cbn [driverRun];
      (split; [lia | split; [lia | split; [reflexivity | split;
         [intros j Hj; lia | right; simpl; lia]]]]).
  - apply Nat.eqb_neq in E.
    destruct (S n <? maxIterations) eqn:E2.
    + apply Nat.ltb_lt in E2.
      destruct (IH w' (f r) (S n) E2 ltac:(lia))
        as (k & w'' & Hk1 & Hk2 & Hrun & Hch & Hlast).
      exists (S k), w''. rewrite Hrun.
      rewrite !Nat.iter_succ_r.
      replace (n + S k) with (S n + k) by lia.
      split; [lia | split; [lia | split; [reflexivity | split]]].
      * intros j Hj. destruct j as [|j].
        -- cbn [Nat.iter nat_rect]. lia.
        -- rewrite (Nat.iter_succ_r (S j) f r), (Nat.iter_succ_r j f r).
           apply Hch. lia.
      * destruct Hlast as [Hl|Hl]; [left; exact Hl | right].
        rewrite Hl. destruct k as [|k]; [lia|].
        replace (S (S k) - 1) with (S k) by lia.
        replace (S k - 1) with k by lia.
        rewrite (Nat.iter_succ_r k f r). reflexivity.
    + apply Nat.ltb_ge in E2.
      exists 1, w'. cbn [Nat.iter nat_rect].
      replace (n + 1) with (S n) by lia.
      destruct fuel; cbn [driverRun];
        (split; [lia | split; [lia | split; [reflexivity | split;
           [intros j Hj; lia | left; lia]]]]).
Qed.

End DriverFacts.

Section DriverStateFacts.

Context {W : Type}.
Variable pass : W -> jsstring -> jsstring * W.

(** The state the driver starts in has no influence on where it stops,
    when it has none on the markup a pass returns. *)
Lemma driverRun_state_free (fuel : nat) :
  (forall w1 w2 r, fst (pass w1 r) = fst (pass w2 r)) ->
  forall w1 w2 s,
    fst (driverRun pass fuel w1 s) = fst (driverRun pass fuel w2 s).
Proof.
  intros pass_state_free.
  induction fuel as [|fuel IH]; intros w1 w2 s; [reflexivity|].
  cbn [driverRun]. destruct s as [r n|r n]; [|reflexivity].
  cbn [driverStep].
  pose proof (pass_state_free w1 w2 r) as Hp.
  destruct (pass w1 r) as [r1 w1'], (pass w2 r) as [r2 w2'].
  cbn [fst] in Hp. subst r2.
  destruct (negb (List.length r =? List.length r1) && (S n <? maxIterations));
    apply IH.
Qed.

(** Once the driver has stopped, more fuel changes nothing. *)
Lemma driverRun_more_fuel (fuel extra : nat) :
  forall w s r k w',
    driverRun pass fuel w s = (DONE r k, w') ->
    driverRun pass (fuel + extra) w s = (DONE r k, w').
Proof.
  induction fuel as [|fuel IH]; intros w s r k w'; cbn [driverRun Nat.add].
  - intros [= -> ->]. destruct extra; reflexivity.
  - destruct s as [r0 n0|r0 n0]; [|intros H; exact H].
    destruct (driverStep pass w (RUNNING r0 n0)) as [s1 w1]. apply IH.
Qed.

End DriverStateFacts.

(** What a pass returns and the state it leaves the pattern object in. *)
Lemma handleCrossTagReplacementSt_eq (re : RegExp) (xml : jsstring)
      (redactions : list Redaction) :
  handleCrossTagReplacementSt re xml redactions
  = (handleCrossTagReplacement xml redactions, mkRegExp 0).
Proof. reflexivity. Qed.

(** The loop of [replaceInXML] always runs to its end. *)
Lemma iterateSt_done (re : RegExp) (xml : jsstring)
      (redactions : list Redaction) :
  exists k re',
    1 <= k <= maxIterations /\
    iterateSt re xml redactions = (DONE (afterPasses redactions k xml) k, re').
Proof.
  destruct (driverRun_done
              (fun re r => handleCrossTagReplacementSt re r redactions)
              (fun r => handleCrossTagReplacement r redactions)
              (fun w r => eq_refl) maxIterations re xml 0)
    as (k & re' & H1 & H2 & Hrun & _); [unfold maxIterations; lia | lia |].
  exists k, re'. split; [lia | exact Hrun].
Qed.

(* ===================================================================== *)
(** ** Facts about the matcher *)
(* ===================================================================== *)

Section MatcherFacts.

Variable textNodes : list TextNode.

Lemma has_singleton_union (s : gset nat) (i : nat) :
  has ({[ i ]} ∪ s) i = true.
Proof. unfold has. apply bool_decide_eq_true. set_solver. Qed.

Lemma has_singleton_union_ne (s : gset nat) (i j : nat) :
  i <> j -> has ({[ i ]} ∪ s) j = has s j.
Proof.
  intros H. unfold has. apply bool_decide_ext.
  rewrite elem_of_union, elem_of_singleton.
  split; [intros [?|?]; [congruence | assumption] | auto].
Qed.

Lemma combinedTextOf_1 (i : nat) :
  combinedTextOf textNodes i 1 = content (nodeAt textNodes i).
Proof. unfold combinedTextOf. cbn. rewrite Nat.add_0_r. reflexivity. Qed.

(** In a window of one fragment an empty original is found at position 0
    and recorded as a match of that one fragment, unless an earlier rule
    of the list occurs in the fragment. *)
Lemma tryRules_empty_original (i : nat) (pre : list Redaction)
      (item : Redaction) (post : list Redaction) (st : MatchState) :
  original item = [] ->
  Forall (fun r => includes (content (nodeAt textNodes i)) (original r) = false)
         pre ->
  has (processed st) i = false ->
  tryRules textNodes i 1 (combinedTextOf textNodes i 1)
           (pre ++ item :: post) st
  = mkMatchState ({[ i ]} ∪ processed st)
                 (matches st ++ [mkMatch i 1 [] (replacement item) 0]).
Proof.
  intros Ho Hpre Hi. rewrite combinedTextOf_1.
  induction Hpre as [|r pre Hr Hpre IH]; cbn [app tryRules].
  - rewrite Ho, indexOf_nil. cbn [locate seq List.length Nat.add].
    rewrite !Nat.add_0_r.
    replace (if (0 <=? 0) && (0 <? List.length (content (nodeAt textNodes i)))
             then i else i) with i by (destruct (_ && _); reflexivity).
    cbn [Nat.ltb Nat.leb andb]. rewrite Hi. cbn [negb].
    unfold offsetOf. rewrite Nat.sub_diag. cbn [seq fold_left].
    replace (Z.of_nat i - Z.of_nat i + 1)%Z with 1%Z by lia.
    reflexivity.
  - apply includes_false_indexOf in Hr. rewrite Hr. exact IH.
Qed.

Lemma trySpans_empty_original (i : nat) (pre : list Redaction)
      (item : Redaction) (post : list Redaction) (st : MatchState) :
  original item = [] ->
  Forall (fun r => includes (content (nodeAt textNodes i)) (original r) = false)
         pre ->
  i < List.length textNodes ->
  has (processed st) i = false ->
  trySpans textNodes i (seq 1 (Nat.min 5 (List.length textNodes - i)))
           (pre ++ item :: post) st
  = mkMatchState ({[ i ]} ∪ processed st)
                 (matches st ++ [mkMatch i 1 [] (replacement item) 0]).
Proof.
  intros Ho Hpre Hlt Hi.
  destruct (Nat.min 5 (List.length textNodes - i)) as [|m] eqn:Em; [lia|].
  cbn [seq trySpans].
  rewrite (tryRules_empty_original i pre item post st Ho Hpre Hi).
  cbn [processed]. rewrite has_singleton_union. reflexivity.
Qed.

Lemma scanNodes_empty_original (pre : list Redaction) (item : Redaction)
      (post : list Redaction) :
  original item = [] ->
  Forall (fun r =>
            Forall (fun node => includes (content node) (original r) = false)
                   textNodes) pre ->
  forall starts st,
    NoDup starts ->
    Forall (fun j => j < List.length textNodes
                     /\ has (processed st) j = false) starts ->
    matches (scanNodes textNodes starts (pre ++ item :: post) st)
    = matches st
        ++ List.map (fun i => mkMatch i 1 [] (replacement item) 0) starts.
Proof.
  intros Ho Hpre. induction starts as [|i starts IH]; intros st Hnd HF.
  - simpl. rewrite app_nil_r. reflexivity.
  - inversion Hnd as [|? ? Hni Hnd']; subst.
    inversion HF as [|? ? [Hlt Hi] HF']; subst.
    cbn [scanNodes]. rewrite Hi.
    rewrite (trySpans_empty_original i pre item post st Ho); [| |exact Hlt|exact Hi].
    + rewrite IH; [|exact Hnd'|].
      * cbn [matches List.map]. rewrite <- app_assoc. reflexivity.
      * cbn [processed]. rewrite Forall_forall in HF' |- *.
        intros j Hj. destruct (HF' j Hj) as [Hjl Hjp]. split; [exact Hjl|].
        rewrite has_singleton_union_ne; [exact Hjp|].
        intros ->. apply Hni. exact Hj.
    + rewrite Forall_forall in Hpre |- *. intros r Hr.
      specialize (Hpre r Hr). rewrite Forall_forall in Hpre.
      apply Hpre. apply list_elem_of_In, nth_In. exact Hlt.
Qed.

(** The walk over a window returns node indices of that window. *)
Lemma locate_in_window (i span matchStart matchEnd : nat) :
  forall js charCount startN endN s e,
    Forall (fun j => j < span) js ->
    i <= startN < i + span -> i <= endN < i + span ->
    locate textNodes i matchStart matchEnd js charCount startN endN = (s, e) ->
    i <= s < i + span /\ i <= e < i + span.
Proof.
  induction js as [|j js IH]; intros charCount startN endN s e HF Hs He;
    cbn [locate].
  - intros [= <- <-]. split; assumption.
  - inversion HF as [|? ? Hj HF']; subst.
    set (nodeEnd := charCount + List.length (content (nodeAt textNodes (i + j)))).
    set (startN' := if (charCount <=? matchStart) && (matchStart <? nodeEnd)
                    then i + j else startN).
    assert (Hs' : i <= startN' < i + span)
      by (unfold startN'; destruct (_ && _); lia).
    destruct ((charCount <? matchEnd) && (matchEnd <=? nodeEnd)).
    + intros [= <- <-]. split; [exact Hs' | lia].
    + apply IH; [exact HF' | exact Hs' |].
      destruct ((charCount <? matchEnd) && (nodeEnd <? matchEnd)); lia.
Qed.

Lemma tryRules_in_range (i span : nat) (combinedText : jsstring)
      (redactions : list Redaction) :
  1 <= span -> i + span <= List.length textNodes ->
  forall st,
    Forall (inNodes textNodes) (matches st) ->
    Forall (inNodes textNodes)
           (matches (tryRules textNodes i span combinedText redactions st)).
Proof.
  intros H1 Hn. induction redactions as [|item rest IH]; intros st HF;
    cbn [tryRules]; [exact HF|].
  destruct (indexOf combinedText (original item)) as [matchStart|];
    [|apply IH; exact HF].
  destruct (locate textNodes i matchStart
                   (matchStart + List.length (original item))
                   (seq 0 span) 0 i i) as [s e] eqn:El.
  apply (locate_in_window i span) in El; [| |lia|lia].
  - destruct (negb (has (processed st) s)); [|apply IH; exact HF].
    cbn [matches]. apply Forall_app. split; [exact HF|].
    constructor; [|constructor].
    unfold inNodes, lastNodeIndex. cbn [startNodeIndex actualSpan]. lia.
  - rewrite Forall_forall. intros j Hj.
    apply list_elem_of_In, in_seq in Hj. lia.
Qed.

Lemma trySpans_in_range (i : nat) (redactions : list Redaction) :
  forall spans st,
    Forall (fun span => 1 <= span /\ i + span <= List.length textNodes) spans ->
    Forall (inNodes textNodes) (matches st) ->
    Forall (inNodes textNodes) (matches (trySpans textNodes i spans redactions st)).
Proof.
  induction spans as [|span spans IH]; intros st Hsp HF; cbn [trySpans];
    [exact HF|].
  inversion Hsp as [|? ? [H1 Hn] Hsp']; subst.
  pose proof (tryRules_in_range i span (combinedTextOf textNodes i span)
                                redactions H1 Hn st HF) as HF'.
  destruct (has _ i); [exact HF' | apply IH; assumption].
Qed.

Lemma scanNodes_in_range (redactions : list Redaction) :
  forall starts st,
    Forall (inNodes textNodes) (matches st) ->
    Forall (inNodes textNodes) (matches (scanNodes textNodes starts redactions st)).
Proof.
  induction starts as [|i starts IH]; intros st HF; cbn [scanNodes];
    [exact HF|].
  destruct (has (processed st) i); [apply IH; exact HF|].
  apply IH. apply trySpans_in_range; [|exact HF].
  rewrite Forall_forall. intros span Hsp.
  apply list_elem_of_In, in_seq in Hsp. lia.
Qed.

(** X7.  Every match of a pass, for any rule list, names a first and a
    last node that exist: the splicer never reads [textNodes] out of
    range. *)
Lemma findMatches_in_range (redactions : list Redaction) :
  Forall (inNodes textNodes) (findMatches textNodes redactions).
Proof. apply scanNodes_in_range. constructor. Qed.

End MatcherFacts.

(* ===================================================================== *)
(** ** Facts about the splicer *)
(* ===================================================================== *)

Section SplicerFacts.

Variable xmlContent : jsstring.
Variables firstTNode lastTNode : TextNode.

(** The branch of lines 243-252 recomputes the end it already has: the
    region runs from the last [<w:r>] before the first node, or from that
    node's start, to six code units after the first [</w:r>] behind the
    last node, or after that node's end. *)
Lemma blockBounds_eq :
  blockBounds xmlContent firstTNode lastTNode
  = (match lastIndexOf (substring xmlContent 0 (startIndex firstTNode)) R_OPEN with
     | Some p => p
     | None => startIndex firstTNode
     end,
     endIndex lastTNode
     + match indexOf (substringFrom xmlContent (endIndex lastTNode)) R_CLOSE with
       | Some p => p
       | None => 0
       end
     + 6).
Proof.
  unfold blockBounds.
  destruct (includes _ R_OPEN && includes _ R_CLOSE); reflexivity.
Qed.

Lemma blockBounds_start_le :
  fst (blockBounds xmlContent firstTNode lastTNode) <= startIndex firstTNode.
Proof.
  rewrite blockBounds_eq. cbn [fst].
  destruct (lastIndexOf _ R_OPEN) as [p|] eqn:E; [|lia].
  apply lastIndexOf_le in E.
  pose proof (substring_0_length xmlContent (startIndex firstTNode)). lia.
Qed.

Lemma blockBounds_end_ge :
  endIndex lastTNode <= snd (blockBounds xmlContent firstTNode lastTNode).
Proof. rewrite blockBounds_eq. cbn [snd]. lia. Qed.

End SplicerFacts.

(* ===================================================================== *)
(** ** The engine on the examples of the specification *)
(* ===================================================================== *)

Example str_cjk :
  str "示例公司" = [31034; 20363; 20844; 21496]%N.
Proof. vm_compute. reflexivity. Qed.

Example substring_swaps : substring (str "abcdef") 4 1 = str "bcd".
Proof. reflexivity. Qed.

Example replaceStr_first_only :
  replaceStr (str "<w:t>t</w:t>") (str "t") (str "X") = str "<w:X>t</w:t>".
Proof. vm_compute. reflexivity. Qed.

Example replaceStr_empty_pattern :
  replaceStr (str "ab") [] (str "X") = str "Xab".
Proof. vm_compute. reflexivity. Qed.

Example replaceStr_template :
  replaceStr (str "abc") (str "b") (str "[$&$$$1]") = str "a[b$$1]c".
Proof. vm_compute. reflexivity. Qed.

Example split_join_all :
  join (split (str "abcab") (str "ab")) (str "-") = str "-c-".
Proof. vm_compute. reflexivity. Qed.

Example split_join_empty_sep :
  join (split (str "abc") []) (str "-") = str "a-b-c".
Proof. vm_compute. reflexivity. Qed.

Example sortRedactions_stable :
  sortRedactions [rule "ab" "1"; rule "abcd" "2"; rule "cd" "3"]
  = [rule "abcd" "2"; rule "ab" "1"; rule "cd" "3"].
Proof. vm_compute. reflexivity. Qed.

(** A scan that started from a [lastIndex] left behind by another scan
    would miss the leaves before it: the reset of line 72 matters. *)
Example execAll_depends_on_lastIndex :
  List.map content (execAll abcMarkup 0 0) = [str "ab"; str "c"]
  /\ List.map content (execAll abcMarkup 0 6) = [str "c"].
Proof. vm_compute. split; reflexivity. Qed.

(** Single-fragment replacement. *)
Example single_fragment_replacement :
  replaceInXML (str "<w:r><w:t>示例公司A有限公司</w:t></w:r>")
               [rule "示例公司A有限公司" "【买方公司A】"]
  = str "<w:r><w:t>【买方公司A】</w:t></w:r>".
Proof. vm_compute. reflexivity. Qed.

(** Prefix preservation. *)
Example prefix_preservation :
  replaceInXML (str "<w:r><w:t>联系人：张三</w:t></w:r>") [rule "张三" "【姓名】"]
  = str "<w:r><w:t>联系人：【姓名】</w:t></w:r>".
Proof. vm_compute. reflexivity. Qed.

(** Cross-fragment match. *)
Example cross_fragment_match :
  replaceInXML
    (str "<w:r><w:t>示例公</w:t></w:r><w:r><w:t>司A有限公司</w:t></w:r>")
    [rule "示例公司A有限公司" "X"]
  = str "<w:r><w:t>X</w:t></w:r><w:r><w:t></w:t></w:r>".
Proof. vm_compute. reflexivity. Qed.

(** Longest rule first, on the main document's path. *)
Example longest_rule_first_sorted :
  replaceInXML (str "<w:r><w:t>示例公司</w:t></w:r>")
               (sortRedactions [rule "公司" "A"; rule "示例公司" "B"])
  = str "<w:r><w:t>B</w:t></w:r>".
Proof. vm_compute. reflexivity. Qed.

(** An empty rule list returns the input. *)
Lemma findMatches_nil (textNodes : list TextNode) :
  findMatches textNodes [] = [].
Proof.
  unfold findMatches.
  assert (Hs : forall spans i st, trySpans textNodes i spans [] st = st).
  { induction spans as [|sp spans IHs]; intros i st; cbn [trySpans tryRules];
      [reflexivity|]. destruct (has (processed st) i); [reflexivity | apply IHs]. }
  assert (Hn : forall starts st, scanNodes textNodes starts [] st = st).
  { induction starts as [|i starts IH]; intros st; cbn [scanNodes];
      [reflexivity|]. rewrite Hs. destruct (has (processed st) i); apply IH. }
  rewrite Hn. reflexivity.
Qed.

Lemma replaceInXML_no_rules (xml : jsstring) : replaceInXML xml [] = xml.
Proof.
  assert (Hp : handleCrossTagReplacement xml [] = xml).
  { unfold handleCrossTagReplacement, handleCrossTagReplacementSt.
    cbn [extractTextNodes fst]. rewrite findMatches_nil. reflexivity. }
  unfold replaceInXML, replaceInXMLSt, iterateSt.
  change maxIterations with (S 99). cbn [driverRun driverStep].
  rewrite handleCrossTagReplacementSt_eq, Hp, Nat.eqb_refl.
  reflexivity.
Qed.

(* ===================================================================== *)
(** ** The matcher and the conflict resolver *)
(* ===================================================================== *)

(** C1.  The guard of line 142 looks at the start node of a match only.
    On the fragments [A], [BCD], [E] the window of two fragments at index 0
    records [BCD] in fragment 1; the window of three fragments then records
    [AB] over the fragments 0 and 1, since fragment 0 is unclaimed.  The two
    matches of this one pass both cover fragment 1, and splicing them
    against the same node list removes the start of the second closing run
    marker. *)
Theorem matcher_claims_fragment_twice :
  let m1 := mkMatch 1 1 (str "BCD") (str "P") 0 in
  let m2 := mkMatch 0 2 (str "AB") (str "Q") 0 in
  List.map content (textNodesOf overlapMarkup) = [str "A"; str "BCD"; str "E"]
  /\ findMatches (textNodesOf overlapMarkup) overlapRules = [m1; m2]
  /\ inRange m1 1 = true /\ inRange m2 1 = true
  /\ rangesDisjoint m1 m2 = false
  /\ handleCrossTagReplacement overlapMarkup overlapRules
     = str "<w:r><w:t>Q</w:t></w:r><w:r><w:t>P</w:t>:r><w:r><w:t>E</w:t></w:r>".
Proof. vm_compute. repeat split; reflexivity. Qed.

(** C4, as stated, fails: the one rule has an empty original, the matcher
    records a match for it, and the engine alters the markup. *)
Lemma empty_original_counterexample :
  findMatches (textNodesOf abMarkup) [rule "" "X"]
  = [mkMatch 0 1 [] (str "X") 0]
  /\ replaceInXML abMarkup [rule "" "X"] <> abMarkup.
Proof. split; [vm_compute; reflexivity | vm_compute; discriminate]. Qed.

(* ===================================================================== *)
(** ** The splicer *)
(* ===================================================================== *)

(** C2.  The callback of the block rewrite passes the whole text of a leaf
    to [replace] (lines 283 and 287), which replaces the first place the
    content occurs at; for the second leaf of [Scot] + [t] that place is the
    [t] of the opening tag.  The claim has the second leaf's content become
    empty and its tag stay as it is; the code removes the [t] of the tag and
    leaves the content: the leaf is no text leaf any more and its text is
    still in the markup. *)
Theorem multi_fragment_splice_damages_tag :
  findMatches (textNodesOf scottMarkup) [rule "Scott" "[NAME]"]
  = [mkMatch 0 2 (str "Scott") (str "[NAME]") 0]
  /\ performCrossTagReplace scottMarkup (textNodesOf scottMarkup) 0 2 0
                            (str "Scott") (str "[NAME]")
     = str "<w:r><w:t>[NAME]</w:t></w:r><w:r><w:>t</w:t></w:r>"
  /\ replaceInXML scottMarkup [rule "Scott" "[NAME]"]
     = str "<w:r><w:t>[NAME]</w:t></w:r><w:r><w:>t</w:t></w:r>"
  /\ replaceInXML scottMarkup [rule "Scott" "[NAME]"]
     <> str "<w:r><w:t>[NAME]</w:t></w:r><w:r><w:t></w:t></w:r>".
Proof.
  vm_compute. repeat split; try reflexivity. discriminate.
Qed.

(** C3.  Lines 206 and 213 pass the whole text of the leaf to [replace],
    which replaces the first place the content occurs at; for a leaf whose
    content is [t] that place is the [t] of the opening tag.  The claim has
    the content become [X] and the tag stay as it is; the code changes the
    tag and leaves the content. *)
Theorem single_fragment_splice_damages_tag :
  findMatches (textNodesOf letterMarkup) [rule "t" "X"]
  = [mkMatch 0 1 (str "t") (str "X") 0]
  /\ performCrossTagReplace letterMarkup (textNodesOf letterMarkup) 0 1 0
                            (str "t") (str "X")
     = str "<w:r><w:X>t</w:t></w:r>"
  /\ performCrossTagReplace letterMarkup (textNodesOf letterMarkup) 0 1 0
                            (str "t") (str "X")
     <> str "<w:r><w:t>X</w:t></w:r>".
Proof.
  vm_compute. repeat split; try reflexivity. discriminate.
Qed.

(* ===================================================================== *)
(** ** Rule order *)
(* ===================================================================== *)

(** C5.  [processDocx] sorts a copy of the rules by descending length and
    gives the sorted copy to the main document only (line 317); a header or
    footer gets the rules in the order of the rule file (line 327).  With
    the shorter rule first in the file, the document's [示例公司] becomes [B]
    as the claim says, and the header's becomes [示例A]. *)
Theorem header_rules_are_not_sorted :
  sortRedactions companyRules = [rule "示例公司" "B"; rule "公司" "A"]
  /\ processDocx companyZip companyRules
     = [(DOCUMENT_XML, str "<w:r><w:t>B</w:t></w:r>");
        (str "word/header/header1.xml", str "<w:r><w:t>示例A</w:t></w:r>")].
Proof. vm_compute. split; reflexivity. Qed.

(* ===================================================================== *)
(** ** The residual pass *)
(* ===================================================================== *)

(** C6, as stated, fails: the replacement [Party A] contains the original
    [A], and a second run replaces it again. *)
Lemma residual_pass_counterexample :
  residualPass partyMarkup [rule "A" "Party A"]
  = str "<w:r><w:t>Party A</w:t></w:r>"
  /\ residualPass (residualPass partyMarkup [rule "A" "Party A"])
                  [rule "A" "Party A"]
     = str "<w:r><w:t>Party Party A</w:t></w:r>"
  /\ residualPass (residualPass partyMarkup [rule "A" "Party A"])
                  [rule "A" "Party A"]
     <> residualPass partyMarkup [rule "A" "Party A"].
Proof. vm_compute. repeat split; try reflexivity. discriminate. Qed.

(** C6, amended.  When the first run of the residual pass was complete,
    that is when no text leaf of its output contains the original of any
    rule, a second run returns the output of the first. *)
Theorem residual_pass_idempotent_when_complete (xml : jsstring)
        (redactions : list Redaction) :
  Forall (fun item =>
            Forall (fun body => includes body (original item) = false)
                   (leafContents (residualPass xml redactions)))
         redactions ->
  residualPass (residualPass xml redactions) redactions
  = residualPass xml redactions.
Proof. apply residualPass_no_occurrence. Qed.

Lemma residual_pass_idempotent_when_complete_witness :
  Forall (fun item =>
            Forall (fun body => includes body (original item) = false)
                   (leafContents (residualPass abcMarkup [rule "b" "X"; rule "c" "Y"])))
         [rule "b" "X"; rule "c" "Y"]
  /\ residualPass (residualPass abcMarkup [rule "b" "X"; rule "c" "Y"])
                  [rule "b" "X"; rule "c" "Y"]
     = str "<w:r><w:t>aX</w:t></w:r><w:r><w:t>Y</w:t></w:r>".
Proof.
  assert (H : Forall (fun item =>
            Forall (fun body => includes body (original item) = false)
                   (leafContents (residualPass abcMarkup [rule "b" "X"; rule "c" "Y"])))
         [rule "b" "X"; rule "c" "Y"]).
  { vm_compute. repeat constructor. }
  split; [exact H|].
  rewrite (residual_pass_idempotent_when_complete abcMarkup
             [rule "b" "X"; rule "c" "Y"] H).
  vm_compute. reflexivity.
Defined.

(* ===================================================================== *)
(** ** The iteration driver *)
(* ===================================================================== *)

(** C7.  A turn of the driver ends in [DONE] exactly when the pass kept the
    length of the markup or the counter has reached the cap of 100.  So
    for every markup and every rule list the loop of [replaceInXML] stops in
    [DONE] after [k] passes with [1 <= k <= 100], whatever fuel of at least
    100 turns it is given: each pass before the last changed the length,
    the last one kept it or was the hundredth, and the residual pass then
    runs on the markup after these [k] passes. *)
Theorem driver_reaches_done_within_cap (re : RegExp) (xml : jsstring)
        (redactions : list Redaction) :
  (forall w r n,
      (exists r' n',
          fst (driverStep (fun re r => handleCrossTagReplacementSt re r redactions)
                          w (RUNNING r n)) = DONE r' n')
      <-> (List.length (handleCrossTagReplacement r redactions) = List.length r
           \/ maxIterations <= S n))
  /\ maxIterations = 100
  /\ exists k re',
      1 <= k <= maxIterations
      /\ iterateSt re xml redactions
         = (DONE (afterPasses redactions k xml) k, re')
      /\ (forall fuel,
            maxIterations <= fuel ->
            driverRun (fun re r => handleCrossTagReplacementSt re r redactions)
                      fuel re (RUNNING xml 0)
            = (DONE (afterPasses redactions k xml) k, re'))
      /\ (forall j, S j < k ->
            List.length (afterPasses redactions (S j) xml)
            <> List.length (afterPasses redactions j xml))
      /\ (k = maxIterations
          \/ List.length (afterPasses redactions k xml)
             = List.length (afterPasses redactions (k - 1) xml))
      /\ fst (replaceInXMLSt re xml redactions)
         = residualPass (afterPasses redactions k xml) redactions.
Proof.
  split; [|split; [reflexivity|]].
  - intros w r n.
    apply (driverStep_done
             (fun re r => handleCrossTagReplacementSt re r redactions)
             (fun r => handleCrossTagReplacement r redactions)
             (fun w r => eq_refl)).
  - destruct (driverRun_done
                (fun re r => handleCrossTagReplacementSt re r redactions)
                (fun r => handleCrossTagReplacement r redactions)
                (fun w r => eq_refl) maxIterations re xml 0)
      as (k & re' & H1 & H2 & Hrun & Hch & Hlast);
      [unfold maxIterations; lia | lia |].
    exists k, re'. cbn [Nat.add] in *.
    split; [lia|]. split; [exact Hrun|]. split; [|split; [exact Hch|]].
    + intros fuel Hfuel.
      replace fuel with (maxIterations + (fuel - maxIterations)) by lia.
      apply driverRun_more_fuel. exact Hrun.
    + split; [exact Hlast|].
      unfold replaceInXMLSt, iterateSt. rewrite Hrun. reflexivity.
Qed.

(* ===================================================================== *)
(** ** Structure of the markup *)
(* ===================================================================== *)

(** C9.  The input has one run, opened and closed.  Line 206 replaces the
    first [t] of the leaf's whole text, which is the [t] of the tag [<w:t>],
    by the replacement [r]: the output has a second opening run marker and
    still one closing marker.  The pass kept the length, so the driver
    stops, and the residual pass finds no text leaf. *)
Theorem replaceInXML_unbalances_runs :
  balanced letterMarkup = true
  /\ replaceInXML letterMarkup [rule "t" "r"] = str "<w:r><w:r>t</w:t></w:r>"
  /\ balanced (replaceInXML letterMarkup [rule "t" "r"]) = false.
Proof. vm_compute. repeat split; reflexivity. Qed.

(* ===================================================================== *)
(** ** Determinism *)
(* ===================================================================== *)

(** C10.  The state the pattern object is in when a pass starts has no
    influence on the text nodes found, since line 72 sets [lastIndex] to 0
    before the scan; so [replaceInXML] returns the same output from any two
    such states, the output of the function of markup and rules alone, and
    returns it again when run a second time in the state the first run has
    left. *)
Theorem replaceInXML_deterministic (re1 re2 : RegExp) (xml : jsstring)
        (redactions : list Redaction) :
  fst (extractTextNodes re1 xml) = fst (extractTextNodes re2 xml)
  /\ fst (replaceInXMLSt re1 xml redactions)
     = fst (replaceInXMLSt re2 xml redactions)
  /\ fst (replaceInXMLSt re1 xml redactions) = replaceInXML xml redactions
  /\ fst (replaceInXMLSt (snd (replaceInXMLSt re1 xml redactions)) xml redactions)
     = fst (replaceInXMLSt re1 xml redactions).
Proof.
  assert (H : forall a b,
             fst (replaceInXMLSt a xml redactions)
             = fst (replaceInXMLSt b xml redactions)).
  { intros a b. unfold replaceInXMLSt, iterateSt.
    pose proof (driverRun_state_free
                  (fun re r => handleCrossTagReplacementSt re r redactions)
                  maxIterations (fun w1 w2 r => eq_refl) a b
                  (RUNNING xml 0)) as Hd.
    destruct (driverRun _ maxIterations a _) as [s1 w1].
    destruct (driverRun _ maxIterations b _) as [s2 w2].
    cbn [fst] in *. subst s2. reflexivity. }
  split; [reflexivity|]. split; [apply H|]. split; [apply H | apply H].
Qed.

(* ===================================================================== *)
(** ** Occurrences *)
(* ===================================================================== *)

Section OccurrenceFacts.

(** [indexOf] finds a place where the pattern occurs, and the first one. *)
Lemma indexOfFrom_Some (pat s : jsstring) :
  forall pos p,
    indexOfFrom pat s pos = Some p ->
    exists a b, s = a ++ pat ++ b /\ p = pos + List.length a.
Proof.
  induction s as [|c s IH]; intros pos p; cbn [indexOfFrom].
  - destruct (startsWith pat []) eqn:E; [|discriminate].
    intros [= <-]. apply startsWith_true in E as [r Hr].
    exists [], r. split; [exact Hr | simpl; lia].
  - destruct (startsWith pat (c :: s)) eqn:E.
    + intros [= <-]. apply startsWith_true in E as [r Hr].
      exists [], r. split; [exact Hr | simpl; lia].
    + intros H. apply IH in H as (a & b & -> & ->).
      exists (c :: a), b. split; [reflexivity | simpl; lia].
Qed.

Lemma indexOfFrom_first (pat s : jsstring) :
  forall pos p a b,
    indexOfFrom pat s pos = Some p -> s = a ++ pat ++ b ->
    p <= pos + List.length a.
Proof.
  induction s as [|c s IH]; intros pos p a b; cbn [indexOfFrom].
  - destruct (startsWith pat []); [intros [= <-] _; lia | discriminate].
  - destruct (startsWith pat (c :: s)) eqn:E; [intros [= <-] _; lia|].
    intros H Hs. destruct a as [|d a].
    + assert (startsWith pat (c :: s) = true)
        by (apply startsWith_true; exists b; exact Hs).
      congruence.
    + simpl in Hs. injection Hs as -> ->.
      specialize (IH _ _ _ _ H eq_refl). simpl. lia.
Qed.

Lemma indexOfFrom_None (pat s : jsstring) :
  forall pos a b, indexOfFrom pat s pos = None -> s <> a ++ pat ++ b.
Proof.
  induction s as [|c s IH]; intros pos a b; cbn [indexOfFrom].
  - destruct (startsWith pat []) eqn:E; [discriminate|].
    intros _ Hs. destruct a; [|discriminate]. simpl in Hs.
    assert (startsWith pat [] = true)
      by (apply startsWith_true; exists b; exact Hs).
    congruence.
  - destruct (startsWith pat (c :: s)) eqn:E; [discriminate|].
    intros H Hs. destruct a as [|d a].
    + assert (startsWith pat (c :: s) = true)
        by (apply startsWith_true; exists b; exact Hs).
      congruence.
    + simpl in Hs. injection Hs as -> ->. exact (IH _ _ _ H eq_refl).
Qed.

(** [includes] holds exactly for the strings the pattern is a part of. *)
Lemma includes_true_iff (s pat : jsstring) :
  includes s pat = true <-> exists a b, s = a ++ pat ++ b.
Proof.
  unfold includes, indexOf. destruct (indexOfFrom pat s 0) as [p|] eqn:E.
  - split; [intros _|reflexivity].
    apply indexOfFrom_Some in E as (a & b & H & _). eauto.
  - split; [discriminate|]. intros (a & b & H).
    exfalso. exact (indexOfFrom_None _ _ _ _ _ E H).
Qed.

Lemma includes_false_part (x s y pat : jsstring) :
  includes (x ++ s ++ y) pat = false -> includes s pat = false.
Proof.
  intros H. destruct (includes s pat) eqn:E; [|reflexivity].
  apply includes_true_iff in E as (a & b & ->).
  assert (includes (x ++ (a ++ pat ++ b) ++ y) pat = true).
  { apply includes_true_iff. exists (x ++ a), (b ++ y).
    rewrite <- !app_assoc. reflexivity. }
  congruence.
Qed.

End OccurrenceFacts.

(* ===================================================================== *)
(** ** The fragment extractor *)
(* ===================================================================== *)

Section ExtractorFacts.

Lemma spanWhile_all (p : N -> bool) (s a b : jsstring) :
  spanWhile p s = (a, b) -> Forall (fun c => p c = true) a.
Proof.
  revert a b; induction s as [|c s IH]; intros a b; simpl.
  - intros [= <- <-]. constructor.
  - destruct (p c) eqn:Hp.
    + destruct (spanWhile p s) as [a' b'] eqn:E.
      intros [= <- <-]. constructor; [exact Hp | eapply IH; reflexivity].
    + intros [= <- <-]. constructor.
Qed.

(** The parts of a match. *)
Lemma matchTTag_shape (s openTag body : jsstring) :
  matchTTag s = Some (openTag, body) ->
  exists attrs,
    openTag = T_OPEN ++ attrs ++ [GT]
    /\ Forall (fun c => c <> GT) attrs
    /\ Forall (fun c => c <> LT) body.
Proof.
  unfold matchTTag.
  destruct (startsWith T_OPEN s); [|discriminate].
  destruct (spanWhile notGT _) as [attrs r2] eqn:E1.
  destruct r2 as [|g r3]; [discriminate|].
  destruct (spanWhile notLT r3) as [bd r4] eqn:E2.
  destruct (startsWith T_CLOSE r4); [|discriminate].
  intros [= <- <-]. exists attrs. split; [reflexivity|].
  apply spanWhile_all in E1, E2. split.
  - eapply Forall_impl; [exact E1|]. intros c Hc. unfold notGT in Hc.
    apply negb_true_iff, N.eqb_neq in Hc. exact Hc.
  - eapply Forall_impl; [exact E2|]. intros c Hc. unfold notLT in Hc.
    apply negb_true_iff, N.eqb_neq in Hc. exact Hc.
Qed.

Lemma nodesInOrder_weaken (lo lo' : nat) (l : list TextNode) :
  lo' <= lo -> nodesInOrder lo l -> nodesInOrder lo' l.
Proof.
  destruct l as [|n l]; [intros _ _; exact I|].
  cbn [nodesInOrder]. intros H (H1 & H2 & H3).
  split; [lia | split; assumption].
Qed.

Lemma substring_middle (pre mid post : jsstring) :
  substring (pre ++ mid ++ post) (List.length pre)
            (List.length pre + List.length mid) = mid.
Proof.
  unfold substring. rewrite !length_app.
  replace (Nat.min (List.length pre)
                   (List.length pre + (List.length mid + List.length post)))
    with (List.length pre) by lia.
  replace (Nat.min (List.length pre + List.length mid)
                   (List.length pre + (List.length mid + List.length post)))
    with (List.length pre + List.length mid) by lia.
  replace (Nat.min (List.length pre) (List.length pre + List.length mid))
    with (List.length pre) by lia.
  replace (Nat.max (List.length pre) (List.length pre + List.length mid)
           - List.length pre) with (List.length mid) by lia.
  rewrite skipn_app, skipn_all, Nat.sub_diag. cbn [app].
  change (skipn 0 (mid ++ post)) with (mid ++ post).
  rewrite firstn_app, firstn_all, Nat.sub_diag.
  change (firstn 0 post) with (@nil N).
  apply app_nil_r.
Qed.

(** The nodes found in the suffix [s] of the markup [pre ++ s]. *)
Lemma execAll_nodes (xml : jsstring) :
  forall s pre li,
    xml = pre ++ s ->
    Forall (nodeOf xml) (execAll s (List.length pre) li)
    /\ nodesInOrder (Nat.max (List.length pre) li)
                    (execAll s (List.length pre) li).
Proof.
  induction s as [|c s IH]; intros pre li Hxml; [split; constructor|].
  cbn [execAll].
  assert (Hxml' : xml = (pre ++ [c]) ++ s)
    by (rewrite <- app_assoc; exact Hxml).
  assert (Hlen : List.length (pre ++ [c]) = S (List.length pre))
    by (rewrite length_app; simpl; lia).
  destruct (List.length pre <? li) eqn:Elt.
  - apply Nat.ltb_lt in Elt.
    destruct (IH (pre ++ [c]) li Hxml') as [HF HO]. rewrite Hlen in HF, HO.
    split; [exact HF|].
    eapply nodesInOrder_weaken; [|exact HO]. lia.
  - apply Nat.ltb_ge in Elt.
    destruct (matchTTag (c :: s)) as [[o b]|] eqn:Hm.
    + destruct (matchTTag_prefix _ _ _ Hm) as [rest Hrest].
      destruct (matchTTag_shape _ _ _ Hm) as (attrs & -> & Ha & Hb).
      set (full := (T_OPEN ++ attrs ++ [GT]) ++ b ++ T_CLOSE) in *.
      assert (Hfl : 1 <= List.length full).
      { unfold full. rewrite !length_app, T_CLOSE_length. lia. }
      destruct (IH (pre ++ [c]) (List.length pre + List.length full) Hxml')
        as [HF HO].
      rewrite Hlen in HF, HO.
      split.
      * constructor; [|exact HF].
        exists attrs. cbn [fullMatch content startIndex endIndex].
        split; [reflexivity|]. split; [exact Ha|]. split; [exact Hb|].
        split; [reflexivity|].
        rewrite Hxml, Hrest. split.
        -- rewrite !length_app. lia.
        -- apply substring_middle.
      * cbn [nodesInOrder startIndex endIndex].
        split; [lia|]. split; [lia|].
        eapply nodesInOrder_weaken; [|exact HO]. lia.
    + destruct (IH (pre ++ [c]) li Hxml') as [HF HO]. rewrite Hlen in HF, HO.
      split; [exact HF|].
      eapply nodesInOrder_weaken; [|exact HO]. lia.
Qed.

(** X1.  Whatever state the pattern object is in, the extractor returns
    text nodes that lie in the markup in document order without overlap,
    none of them empty, and each node is the part of the markup between its
    two positions: an opening tag that starts with [<w:t] and has no [>]
    before its last code unit, a content without [<], and [</w:t>]. *)
Theorem extractTextNodes_invariants (re : RegExp) (xml : jsstring) :
  Forall (nodeOf xml) (fst (extractTextNodes re xml))
  /\ nodesInOrder 0 (fst (extractTextNodes re xml)).
Proof.
  unfold extractTextNodes. cbn [fst setLastIndex lastIndex].
  exact (execAll_nodes xml xml [] 0 eq_refl).
Qed.

End ExtractorFacts.

(* ===================================================================== *)
(** ** Markup the engine leaves as it is *)
(* ===================================================================== *)

Section UnchangedFacts.

Variable textNodes : list TextNode.

Lemma combinedTextOf_S (i span : nat) :
  combinedTextOf textNodes i (S span)
  = combinedTextOf textNodes i span ++ content (nodeAt textNodes (i + span)).
Proof.
  unfold combinedTextOf. rewrite seq_S, fold_left_app. reflexivity.
Qed.

(** The text of a window is the concatenation of its nodes' contents. *)
Lemma combinedTextOf_concat (i span : nat) :
  i + span <= List.length textNodes ->
  combinedTextOf textNodes i span
  = concat (List.map content (firstn span (skipn i textNodes))).
Proof.
  induction span as [|span IH]; intros H; [reflexivity|].
  rewrite combinedTextOf_S, IH by lia.
  assert (Hl : (skipn i textNodes) !! span = Some (nodeAt textNodes (i + span))).
  { rewrite lookup_drop. unfold nodeAt. rewrite nth_lookup.
    destruct (lookup_lt_is_Some_2 textNodes (i + span) ltac:(lia)) as [x Hx].
    rewrite Hx. reflexivity. }
  rewrite (take_S_r _ _ _ Hl), map_app, concat_app. cbn [List.map concat].
  rewrite app_nil_r. reflexivity.
Qed.

(** The text of a window is a part of the text of all nodes. *)
Lemma combinedTextOf_part (i span : nat) :
  i + span <= List.length textNodes ->
  exists x y,
    concat (List.map content textNodes)
    = x ++ combinedTextOf textNodes i span ++ y.
Proof.
  intros H. rewrite combinedTextOf_concat by exact H.
  exists (concat (List.map content (firstn i textNodes))),
         (concat (List.map content (skipn span (skipn i textNodes)))).
  rewrite <- !concat_app, <- !map_app, !firstn_skipn. reflexivity.
Qed.

Lemma tryRules_no_occurrence (i span : nat) (combinedText : jsstring)
      (redactions : list Redaction) (st : MatchState) :
  Forall (fun r => includes combinedText (original r) = false) redactions ->
  tryRules textNodes i span combinedText redactions st = st.
Proof.
  induction 1 as [|r rest Hr _ IH]; cbn [tryRules]; [reflexivity|].
  rewrite (includes_false_indexOf _ _ Hr). exact IH.
Qed.

Lemma trySpans_no_occurrence (i : nat) (redactions : list Redaction) :
  forall spans st,
    Forall (fun span =>
              Forall (fun r => includes (combinedTextOf textNodes i span)
                                        (original r) = false) redactions)
           spans ->
    trySpans textNodes i spans redactions st = st.
Proof.
  induction spans as [|span spans IH]; intros st H; cbn [trySpans];
    [reflexivity|].
  inversion H as [|? ? Hs Hr]; subst.
  rewrite (tryRules_no_occurrence _ _ _ _ _ Hs).
  destruct (has (processed st) i); [reflexivity | apply IH; exact Hr].
Qed.

(** Rules that occur nowhere in the text of all nodes give no match. *)
Lemma findMatches_no_occurrence (redactions : list Redaction) :
  Forall (fun r => includes (concat (List.map content textNodes))
                            (original r) = false) redactions ->
  findMatches textNodes redactions = [].
Proof.
  intros H. unfold findMatches.
  assert (Hn : forall starts st,
             scanNodes textNodes starts redactions st = st).
  { induction starts as [|i starts IH]; intros st; cbn [scanNodes];
      [reflexivity|].
    destruct (has (processed st) i); [apply IH|].
    rewrite trySpans_no_occurrence; [apply IH|].
    rewrite Forall_forall. intros span Hsp.
    apply list_elem_of_In, in_seq in Hsp.
    destruct (combinedTextOf_part i span ltac:(lia)) as (x & y & Hxy).
    eapply Forall_impl; [exact H|]. intros r Hr. cbn beta in Hr.
    rewrite Hxy in Hr. exact (includes_false_part _ _ _ _ Hr). }
  rewrite Hn. reflexivity.
Qed.

End UnchangedFacts.

(** With no match in the first pass and no occurrence in a single leaf the
    engine returns the markup as it is. *)
Lemma replaceInXML_unchanged (xml : jsstring) (redactions : list Redaction) :
  findMatches (execAll xml 0 0) redactions = [] ->
  Forall (fun item =>
            Forall (fun body => includes body (original item) = false)
                   (leafContents xml)) redactions ->
  replaceInXML xml redactions = xml.
Proof.
  intros Hm Hr.
  assert (Hp : handleCrossTagReplacement xml redactions = xml).
  { unfold handleCrossTagReplacement, handleCrossTagReplacementSt.
    cbn [extractTextNodes fst setLastIndex lastIndex]. rewrite Hm. reflexivity. }
  unfold replaceInXML, replaceInXMLSt, iterateSt.
  change maxIterations with (S 99). cbn [driverRun driverStep].
  rewrite handleCrossTagReplacementSt_eq, Hp, Nat.eqb_refl.
  cbn [negb andb driverRun driverResult fst].
  apply residualPass_no_occurrence. exact Hr.
Qed.

(** X2.  Rules whose originals occur nowhere in the text of the part, read
    as the contents of its text leaves one after the other, leave the
    markup as it is; an empty rule list is the plainest case. *)
Theorem replaceInXML_no_occurrence (xml : jsstring)
        (redactions : list Redaction) :
  Forall (fun r => includes (concat (leafContents xml)) (original r) = false)
         redactions ->
  replaceInXML xml redactions = xml.
Proof.
  intros H. apply replaceInXML_unchanged.
  - apply findMatches_no_occurrence. exact H.
  - eapply Forall_impl; [exact H|]. intros r Hr. cbn beta in Hr.
    rewrite Forall_forall. intros body Hb.
    apply list_elem_of_In, in_split in Hb as (l1 & l2 & Hl).
    rewrite Hl, concat_app in Hr. cbn [concat] in Hr.
    exact (includes_false_part _ _ _ _ Hr).
Qed.

Lemma replaceInXML_no_occurrence_witness :
  Forall (fun r => includes (concat (leafContents abcMarkup)) (original r) = false)
         [rule "ac" "X"; rule "<w:t>" "Y"]
  /\ replaceInXML abcMarkup [rule "ac" "X"; rule "<w:t>" "Y"] = abcMarkup.
Proof.
  assert (H : Forall (fun r => includes (concat (leafContents abcMarkup))
                                        (original r) = false)
                     [rule "ac" "X"; rule "<w:t>" "Y"]).
  { vm_compute. repeat constructor. }
  split; [exact H|].
  exact (replaceInXML_no_occurrence abcMarkup _ H).
Defined.

(** X3.  A part without text leaf is returned as it is, whatever the rules
    are, a rule with an empty original included. *)
Theorem replaceInXML_no_leaf (xml : jsstring) (redactions : list Redaction) :
  leafContents xml = [] ->
  replaceInXML xml redactions = xml.
Proof.
  intros H. apply replaceInXML_unchanged.
  - unfold leafContents in H. apply map_eq_nil in H. rewrite H. reflexivity.
  - rewrite H. rewrite Forall_forall. intros r _. constructor.
Qed.

Lemma replaceInXML_no_leaf_witness :
  leafContents (str "<w:p><w:r><w:tab/></w:r></w:p>") = []
  /\ replaceInXML (str "<w:p><w:r><w:tab/></w:r></w:p>")
                  [rule "" "X"; rule "tab" "Y"]
     = str "<w:p><w:r><w:tab/></w:r></w:p>".
Proof.
  assert (H : leafContents (str "<w:p><w:r><w:tab/></w:r></w:p>") = [])
    by (vm_compute; reflexivity).
  split; [exact H|].
  exact (replaceInXML_no_leaf _ [rule "" "X"; rule "tab" "Y"] H).
Defined.

(* ===================================================================== *)
(** ** The order of the rules *)
(* ===================================================================== *)

Section SortFacts.

Lemma insertByLength_perm (x : Redaction) (l : list Redaction) :
  Permutation (insertByLength x l) (x :: l).
Proof.
  induction l as [|y l IH]; cbn [insertByLength]; [reflexivity|].
  destruct (List.length (original x) <? List.length (original y)).
  - rewrite IH. apply perm_swap.
  - reflexivity.
Qed.

Lemma insertByLength_descending (x : Redaction) (l : list Redaction) :
  descendingLength l -> descendingLength (insertByLength x l).
Proof.
  induction l as [|y l IH]; cbn [insertByLength descendingLength].
  - intros _. split; [constructor | exact I].
  - intros [Hy Hl].
    destruct (List.length (original x) <? List.length (original y)) eqn:E.
    + apply Nat.ltb_lt in E. cbn [descendingLength]. split; [|exact (IH Hl)].
      rewrite (insertByLength_perm x l). constructor; [lia | exact Hy].
    + apply Nat.ltb_ge in E. cbn [descendingLength].
      split; [|split; assumption].
      constructor; [exact E|].
      eapply Forall_impl; [exact Hy|]. intros z Hz. cbn beta in Hz. lia.
Qed.

Lemma insertByLength_rulesOfLength (k : nat) (x : Redaction)
      (l : list Redaction) :
  rulesOfLength k (insertByLength x l) = rulesOfLength k (x :: l).
Proof.
  unfold rulesOfLength.
  induction l as [|y l IH]; cbn [insertByLength]; [reflexivity|].
  destruct (List.length (original x) <? List.length (original y)) eqn:E;
    [|reflexivity].
  apply Nat.ltb_lt in E. cbn [List.filter] in *. rewrite IH.
  destruct (List.length (original x) =? k) eqn:Ex;
    destruct (List.length (original y) =? k) eqn:Ey; try reflexivity.
  apply Nat.eqb_eq in Ex, Ey. lia.
Qed.

(** X4.  The sorted copy of line 308 holds the same rules as the rule
    file, in descending order of the length of the original, and rules
    whose originals have the same length keep the order of the file. *)
Theorem sortRedactions_sorts (l : list Redaction) :
  Permutation (sortRedactions l) l
  /\ descendingLength (sortRedactions l)
  /\ forall k, rulesOfLength k (sortRedactions l) = rulesOfLength k l.
Proof.
  induction l as [|x l (IHp & IHd & IHs)]; cbn [sortRedactions].
  - split; [reflexivity | split; [exact I | reflexivity]].
  - split; [|split].
    + rewrite insertByLength_perm, IHp. reflexivity.
    + apply insertByLength_descending. exact IHd.
    + intros k. rewrite insertByLength_rulesOfLength.
      unfold rulesOfLength in *. cbn [List.filter]. rewrite IHs. reflexivity.
Qed.

End SortFacts.

(* ===================================================================== *)
(** ** The splice of a match inside one leaf *)
(* ===================================================================== *)

Section SingleSpliceFacts.

Lemma getSubstitution_plain (matched before after template : jsstring) :
  Forall (fun c => c <> DOLLAR) template ->
  getSubstitution matched before after template = template.
Proof.
  induction 1 as [|c t Hc _ IH]; cbn [getSubstitution]; [reflexivity|].
  apply N.eqb_neq in Hc. rewrite Hc, IH. reflexivity.
Qed.

(** Where the pattern first occurs, the text before and after it. *)
Lemma indexOf_split (s pat : jsstring) (p : nat) :
  indexOf s pat = Some p ->
  s = firstn p s ++ pat ++ skipn (p + List.length pat) s
  /\ p + List.length pat <= List.length s.
Proof.
  intros H. apply indexOfFrom_Some in H as (a & b & -> & ->).
  cbn [Nat.add]. rewrite firstn_app, firstn_all, Nat.sub_diag.
  change (firstn 0 (pat ++ b)) with (@nil N). rewrite app_nil_r.
  rewrite skipn_app, skipn_all2 by lia.
  replace (List.length a + List.length pat - List.length a)
    with (List.length pat) by lia.
  rewrite skipn_app, skipn_all, Nat.sub_diag.
  change (skipn 0 b) with b. cbn [app].
  split; [reflexivity | rewrite !length_app; lia].
Qed.

(** [replace] with a replacement that has no dollar sign. *)
Lemma replaceStr_plain (s pat rep : jsstring) (p : nat) :
  indexOf s pat = Some p ->
  Forall (fun c => c <> DOLLAR) rep ->
  replaceStr s pat rep = firstn p s ++ rep ++ skipn (p + List.length pat) s.
Proof.
  intros H Hr. unfold replaceStr. rewrite H.
  rewrite getSubstitution_plain by exact Hr. reflexivity.
Qed.

Lemma substring_0 (s : jsstring) (n : nat) : substring s 0 n = firstn n s.
Proof.
  unfold substring.
  replace (Nat.min (Nat.min 0 (List.length s)) (Nat.min n (List.length s)))
    with 0 by lia.
  replace (Nat.max (Nat.min 0 (List.length s)) (Nat.min n (List.length s)) - 0)
    with (Nat.min n (List.length s)) by lia.
  change (skipn 0 s) with s.
  destruct (Nat.le_ge_cases n (List.length s)) as [H|H].
  - rewrite Nat.min_l by exact H. reflexivity.
  - rewrite Nat.min_r by exact H. rewrite firstn_all, firstn_all2 by exact H.
    reflexivity.
Qed.

Lemma substringFrom_skipn (s : jsstring) (n : nat) :
  substringFrom s n = skipn n s.
Proof.
  unfold substringFrom, substring.
  destruct (Nat.le_ge_cases n (List.length s)) as [H|H].
  - replace (Nat.min (Nat.min n (List.length s))
                     (Nat.min (List.length s) (List.length s))) with n by lia.
    replace (Nat.max (Nat.min n (List.length s))
                     (Nat.min (List.length s) (List.length s)) - n)
      with (List.length (skipn n s)) by (rewrite length_skipn; lia).
    apply firstn_all.
  - replace (Nat.min (Nat.min n (List.length s))
                     (Nat.min (List.length s) (List.length s)))
      with (List.length s) by lia.
    replace (Nat.max (Nat.min n (List.length s))
                     (Nat.min (List.length s) (List.length s)) - List.length s)
      with 0 by lia.
    rewrite skipn_all, (skipn_all2 s H). reflexivity.
Qed.

Lemma Forall_firstn_skipn {A : Type} (P : A -> Prop) (l : list A) (n : nat) :
  Forall P l -> Forall P (firstn n l) /\ Forall P (skipn n l).
Proof.
  intros H. rewrite <- (firstn_skipn n l) in H.
  apply Forall_app in H. exact H.
Qed.

(** X6.  A match inside one leaf, at the first place [o] the original
    occurs in the leaf's content: when the content first occurs in the
    leaf's whole text as the content itself, and neither the content nor
    the replacement has a dollar sign, the splice puts the content before
    [o], the replacement and the content behind the original between the
    leaf's own tags and leaves all markup around the leaf as it is. *)
Theorem single_fragment_splice (pre post openTag body : jsstring)
        (originalText replacementText : jsstring)
        (textNodes : list TextNode) (k o : nat) :
  nodeAt textNodes k
  = mkTextNode (openTag ++ body ++ T_CLOSE) body (List.length pre)
               (List.length pre + List.length (openTag ++ body ++ T_CLOSE)) ->
  indexOf (openTag ++ body ++ T_CLOSE) body = Some (List.length openTag) ->
  indexOf body originalText = Some o ->
  Forall (fun c => c <> DOLLAR) body ->
  Forall (fun c => c <> DOLLAR) replacementText ->
  performCrossTagReplace (pre ++ (openTag ++ body ++ T_CLOSE) ++ post)
                         textNodes k 1 (Z.of_nat o)
                         originalText replacementText
  = pre ++ (openTag
            ++ (firstn o body ++ replacementText
                ++ skipn (o + List.length originalText) body)
            ++ T_CLOSE) ++ post.
Proof.
  intros Hnode Hfull Hbody Hdb Hdr.
  set (full := openTag ++ body ++ T_CLOSE) in *.
  set (new := firstn o body ++ replacementText
              ++ skipn (o + List.length originalText) body).
  assert (Hnew : Forall (fun c => c <> DOLLAR) new).
  { unfold new. destruct (Forall_firstn_skipn _ body o Hdb) as [Hf _].
    destruct (Forall_firstn_skipn _ body (o + List.length originalText) Hdb)
      as [_ Hs].
    apply Forall_app. split; [exact Hf|]. apply Forall_app. split; assumption. }
  assert (Htag : replaceStr full body new = openTag ++ new ++ T_CLOSE).
  { rewrite (replaceStr_plain _ _ _ _ Hfull Hnew). unfold full.
    rewrite firstn_app, firstn_all, Nat.sub_diag.
    change (firstn 0 (body ++ T_CLOSE)) with (@nil N). rewrite app_nil_r.
    rewrite skipn_app, skipn_all2 by lia.
    replace (List.length openTag + List.length body - List.length openTag)
      with (List.length body) by lia.
    rewrite skipn_app, skipn_all, Nat.sub_diag. reflexivity. }
  assert (Hout : substring (pre ++ full ++ post) 0 (List.length pre)
                 ++ (openTag ++ new ++ T_CLOSE)
                 ++ substringFrom (pre ++ full ++ post)
                                  (List.length pre + List.length full)
                 = pre ++ (openTag ++ new ++ T_CLOSE) ++ post).
  { rewrite substring_0, substringFrom_skipn.
    rewrite firstn_app, firstn_all, Nat.sub_diag.
    change (firstn 0 (full ++ post)) with (@nil N). rewrite app_nil_r.
    rewrite skipn_app, skipn_all2 by lia.
    replace (List.length pre + List.length full - List.length pre)
      with (List.length full) by lia.
    rewrite skipn_app, skipn_all, Nat.sub_diag. reflexivity. }
  unfold performCrossTagReplace. rewrite Hnode.
  cbn [Z.eqb Pos.eqb content fullMatch startIndex endIndex]. fold full.
  destruct (Z.of_nat o =? 0)%Z eqn:Eo.
  - apply Z.eqb_eq in Eo. assert (o = 0) by lia. subst o.
    rewrite (replaceStr_plain _ _ _ _ Hbody Hdr). fold new.
    rewrite Htag. exact Hout.
  - rewrite (substring_0 body), (substringFrom_skipn body).
    replace (Z.to_nat (Z.of_nat o + Z.of_nat (List.length originalText)))
      with (o + List.length originalText) by lia.
    rewrite Nat2Z.id. fold new. rewrite Htag. exact Hout.
Qed.

Lemma single_fragment_splice_witness :
  nodeAt (textNodesOf (str "<w:r><w:t>联系人：张三</w:t></w:r>")) 0
  = mkTextNode (str "<w:t>" ++ str "联系人：张三" ++ T_CLOSE) (str "联系人：张三")
               (List.length (str "<w:r>"))
               (List.length (str "<w:r>")
                + List.length (str "<w:t>" ++ str "联系人：张三" ++ T_CLOSE))
  /\ indexOf (str "<w:t>" ++ str "联系人：张三" ++ T_CLOSE) (str "联系人：张三")
     = Some (List.length (str "<w:t>"))
  /\ indexOf (str "联系人：张三") (str "张三") = Some 4
  /\ Forall (fun c => c <> DOLLAR) (str "联系人：张三")
  /\ Forall (fun c => c <> DOLLAR) (str "【姓名】")
  /\ performCrossTagReplace
       (str "<w:r>" ++ (str "<w:t>" ++ str "联系人：张三" ++ T_CLOSE) ++ str "</w:r>")
       (textNodesOf (str "<w:r><w:t>联系人：张三</w:t></w:r>")) 0 1 (Z.of_nat 4)
       (str "张三") (str "【姓名】")
     = str "<w:r><w:t>联系人：【姓名】</w:t></w:r>".
Proof.
  assert (H1 : nodeAt (textNodesOf (str "<w:r><w:t>联系人：张三</w:t></w:r>")) 0
  = mkTextNode (str "<w:t>" ++ str "联系人：张三" ++ T_CLOSE) (str "联系人：张三")
               (List.length (str "<w:r>"))
               (List.length (str "<w:r>")
                + List.length (str "<w:t>" ++ str "联系人：张三" ++ T_CLOSE)))
    by (vm_compute; reflexivity).
  assert (H2 : indexOf (str "<w:t>" ++ str "联系人：张三" ++ T_CLOSE) (str "联系人：张三")
     = Some (List.length (str "<w:t>"))) by (vm_compute; reflexivity).
  assert (H3 : indexOf (str "联系人：张三") (str "张三") = Some 4)
    by (vm_compute; reflexivity).
  assert (H4 : Forall (fun c => c <> DOLLAR) (str "联系人：张三"))
    by (vm_compute; repeat constructor; discriminate).
  assert (H5 : Forall (fun c => c <> DOLLAR) (str "【姓名】"))
    by (vm_compute; repeat constructor; discriminate).
  pose proof (single_fragment_splice (str "<w:r>") (str "</w:r>") (str "<w:t>")
                (str "联系人：张三") (str "张三") (str "【姓名】")
                (textNodesOf (str "<w:r><w:t>联系人：张三</w:t></w:r>")) 0 4
                H1 H2 H3 H4 H5) as H.
  split; [exact H1|]. split; [exact H2|]. split; [exact H3|].
  split; [exact H4|]. split; [exact H5|].
  vm_compute in H. vm_compute. exact H.
Defined.

End SingleSpliceFacts.

(* ===================================================================== *)
(** ** What the matcher records *)
(* ===================================================================== *)

Section MatcherSoundness.

Variable textNodes : list TextNode.

Lemma combinedTextOf_add (i a b : nat) :
  combinedTextOf textNodes i (a + b)
  = combinedTextOf textNodes i a ++ combinedTextOf textNodes (i + a) b.
Proof.
  induction b as [|b IH].
  - rewrite Nat.add_0_r. unfold combinedTextOf at 3. cbn.
    rewrite app_nil_r. reflexivity.
  - rewrite Nat.add_succ_r, !combinedTextOf_S, IH, <- app_assoc.
    rewrite Nat.add_assoc. reflexivity.
Qed.

Lemma windowLength_S (i j : nat) :
  windowLength textNodes i (S j) = windowLength textNodes i j + List.length (content (nodeAt textNodes (i + j))).
Proof. unfold windowLength. rewrite combinedTextOf_S, length_app. reflexivity. Qed.

(** The walk of lines 112-131 finds the node the original starts in and
    the node it ends in. *)
Lemma locate_spec (i ms me : nat) :
  forall k j0 startN endN s e,
    locate textNodes i ms me (seq j0 k) (windowLength textNodes i j0) startN endN = (s, e) ->
    ms < me -> windowLength textNodes i j0 < me -> me <= windowLength textNodes i (j0 + k) ->
    (ms < windowLength textNodes i j0 ->
     exists js, startN = i + js /\ js < j0 /\ windowLength textNodes i js <= ms < windowLength textNodes i (S js)) ->
    exists js je,
      s = i + js /\ e = i + je /\ js <= je /\ je < j0 + k
      /\ windowLength textNodes i js <= ms < windowLength textNodes i (S js) /\ windowLength textNodes i je < me <= windowLength textNodes i (S je).
Proof.
  induction k as [|k IH]; intros j0 startN endN s e Hl Hlt Hc Hme Hst.
  - rewrite Nat.add_0_r in Hme. lia.
  - cbn [seq locate] in Hl. rewrite <- windowLength_S in Hl.
    set (startN' := if (windowLength textNodes i j0 <=? ms) && (ms <? windowLength textNodes i (S j0))
                    then i + j0 else startN) in *.
    assert (Hst' : ms < windowLength textNodes i (S j0) ->
                   exists js, startN' = i + js /\ js < S j0
                              /\ windowLength textNodes i js <= ms < windowLength textNodes i (S js)).
    { intros Hms. unfold startN'.
      destruct (windowLength textNodes i j0 <=? ms) eqn:E1; cbn [andb].
      - apply Nat.leb_le in E1.
        assert (E2 : (ms <? windowLength textNodes i (S j0)) = true) by (apply Nat.ltb_lt; lia).
        rewrite E2. exists j0. split; [reflexivity|]. split; lia.
      - apply Nat.leb_gt in E1. destruct (Hst E1) as (js & H1 & H2 & H3).
        exists js. split; [exact H1|]. split; [lia | exact H3]. }
    destruct ((windowLength textNodes i j0 <? me) && (me <=? windowLength textNodes i (S j0))) eqn:E.
    + apply andb_true_iff in E as [_ E]. apply Nat.leb_le in E.
      injection Hl as <- <-.
      destruct (Hst' ltac:(lia)) as (js & H1 & H2 & H3).
      exists js, j0. split; [exact H1|]. split; [reflexivity|].
      split; [lia|]. split; [lia|]. split; [exact H3 | lia].
    + assert (Hgt : windowLength textNodes i (S j0) < me).
      { apply andb_false_iff in E as [E|E].
        - apply Nat.ltb_ge in E. lia.
        - apply Nat.leb_gt in E. exact E. }
      apply IH in Hl; [|exact Hlt|exact Hgt| |exact Hst'].
      * destruct Hl as (js & je & H1 & H2 & H3 & H4 & H5 & H6).
        exists js, je. split; [exact H1|]. split; [exact H2|].
        split; [exact H3|]. split; [lia|]. split; assumption.
      * replace (S j0 + k) with (j0 + S k) by lia. exact Hme.
Qed.

Lemma offsetOf_eq (i ms js : nat) :
  offsetOf textNodes i ms (i + js) = (Z.of_nat ms - Z.of_nat (windowLength textNodes i js))%Z.
Proof.
  unfold offsetOf. replace (i + js - i) with js by lia.
  induction js as [|js IH].
  - unfold windowLength, combinedTextOf. cbn. lia.
  - rewrite seq_S, fold_left_app, IH. cbn [fold_left Nat.add].
    rewrite windowLength_S. lia.
Qed.

Lemma locate_window (i span ms me s e : nat) :
  locate textNodes i ms me (seq 0 span) 0 i i = (s, e) ->
  ms < me -> me <= windowLength textNodes i span ->
  exists js je,
    s = i + js /\ e = i + je /\ js <= je /\ je < span
    /\ windowLength textNodes i js <= ms < windowLength textNodes i (S js)
    /\ windowLength textNodes i je < me <= windowLength textNodes i (S je).
Proof.
  intros Hl Hlt Hme.
  assert (H0 : windowLength textNodes i 0 = 0) by reflexivity.
  apply (locate_spec i ms me span 0 i i s e Hl Hlt);
    [rewrite H0; lia | exact Hme | rewrite H0; lia].
Qed.

(** An original found in the text of a window lies in the text of the
    nodes from the one it starts in to the one it ends in. *)
Lemma window_occurrence (i span js je ms : nat) (orig : jsstring) :
  js <= je -> je < span ->
  indexOf (combinedTextOf textNodes i span) orig = Some ms ->
  windowLength textNodes i js <= ms < windowLength textNodes i (S js) ->
  windowLength textNodes i je < ms + List.length orig
                              <= windowLength textNodes i (S je) ->
  exists a b,
    combinedTextOf textNodes (i + js) (S (je - js)) = a ++ orig ++ b
    /\ (Z.of_nat ms - Z.of_nat (windowLength textNodes i js))%Z
       = Z.of_nat (List.length a)
    /\ List.length a < List.length (content (nodeAt textNodes (i + js)))
    /\ List.length b < List.length (content (nodeAt textNodes (i + je))).
Proof.
  intros Hj Hje Hidx Hs He.
  apply indexOfFrom_Some in Hidx as (A & B & Hcomb & HA). cbn [Nat.add] in HA.
  set (X := combinedTextOf textNodes i js).
  set (W := combinedTextOf textNodes (i + js) (S (je - js))).
  set (Y := combinedTextOf textNodes (i + S je) (span - S je)).
  assert (HXW : combinedTextOf textNodes i (S je) = X ++ W).
  { replace (S je) with (js + S (je - js)) by lia. apply combinedTextOf_add. }
  assert (Hall : combinedTextOf textNodes i span = X ++ W ++ Y).
  { replace span with (S je + (span - S je)) at 1 by lia.
    rewrite combinedTextOf_add, HXW, <- app_assoc. reflexivity. }
  assert (HlX : List.length X = windowLength textNodes i js)
    by reflexivity.
  assert (HlW : windowLength textNodes i (S je)
                = List.length X + List.length W).
  { unfold windowLength. rewrite HXW, length_app. reflexivity. }
  rewrite windowLength_S in Hs, He.
  rewrite Hall in Hcomb.
  assert (HWY : W ++ Y = skipn (List.length X) A ++ orig ++ B).
  { apply (f_equal (skipn (List.length X))) in Hcomb.
    rewrite skipn_app, skipn_all, Nat.sub_diag in Hcomb.
    change (skipn 0 (W ++ Y)) with (W ++ Y) in Hcomb. cbn [app] in Hcomb.
    rewrite Hcomb, skipn_app.
    replace (List.length X - List.length A) with 0 by lia. reflexivity. }
  set (a := skipn (List.length X) A) in *.
  assert (Hla : List.length a = ms - List.length X)
    by (unfold a; rewrite length_skipn; lia).
  rewrite windowLength_S in HlW.
  assert (Hfit : List.length a + List.length orig <= List.length W) by lia.
  exists a, (firstn (List.length W - List.length a - List.length orig) B).
  split; [|split; [lia | split]].
  - apply (f_equal (firstn (List.length W))) in HWY.
    rewrite firstn_app, firstn_all, Nat.sub_diag in HWY.
    change (firstn 0 Y) with (@nil N) in HWY. rewrite app_nil_r in HWY.
    rewrite firstn_app, (firstn_all2 a) in HWY by lia.
    rewrite firstn_app, (firstn_all2 orig) in HWY by lia.
    exact HWY.
  - lia.
  - pose proof (firstn_le_length
                  (List.length W - List.length a - List.length orig) B).
    lia.
Qed.

Lemma fold_add_elem (l : list nat) :
  forall (s : gset nat) (j : nat),
    j ∈ fold_left (fun acc j => {[ j ]} ∪ acc) l s <-> j ∈ s \/ In j l.
Proof.
  induction l as [|x l IH]; intros s j; cbn [fold_left].
  - split; [auto | intros [H|[]]; exact H].
  - rewrite IH, elem_of_union, elem_of_singleton. cbn [In].
    split; [intros [[->|H]|H]; auto | intros [H|[->|H]]; auto].
Qed.

Lemma markProcessed_has (s : gset nat) (startN : nat) (span : Z) (j : nat) :
  has (markProcessed s startN span) j = true
  <-> has s j = true \/ startN <= j < startN + Z.to_nat span.
Proof.
  unfold has, markProcessed. rewrite !bool_decide_eq_true, fold_add_elem, in_seq.
  reflexivity.
Qed.

(** One window keeps what has been recorded sound and adds only a sound
    match that starts in an unclaimed node. *)
Lemma tryRules_sound (all : list Redaction) (i span : nat) :
  1 <= span <= 5 -> i + span <= List.length textNodes ->
  forall rs st,
    (forall r, In r rs -> In r all /\ original r <> []) ->
    Forall (matchSound textNodes all) (matches st) -> claimedStarts st ->
    Forall (matchSound textNodes all)
           (matches (tryRules textNodes i span
                              (combinedTextOf textNodes i span) rs st))
    /\ claimedStarts (tryRules textNodes i span
                               (combinedTextOf textNodes i span) rs st).
Proof.
  intros Hspan Hn. induction rs as [|item rest IH]; intros st Hrs HF Hcl;
    cbn [tryRules]; [split; assumption|].
  assert (Hrest : forall r, In r rest -> In r all /\ original r <> [])
    by (intros r Hr; apply Hrs; right; exact Hr).
  destruct (indexOf (combinedTextOf textNodes i span) (original item))
    as [ms|] eqn:Hidx; [|apply IH; assumption].
  destruct (locate textNodes i ms (ms + List.length (original item))
                   (seq 0 span) 0 i i) as [s e] eqn:El.
  destruct (has (processed st) s) eqn:Hhas; cbn [negb];
    [apply IH; assumption|].
  destruct (Hrs item (or_introl eq_refl)) as [Hin Hne].
  assert (Hlen : 0 < List.length (original item))
    by (destruct (original item); [contradiction | simpl; lia]).
  destruct (indexOf_split _ _ _ Hidx) as [_ Hfit].
  apply locate_window in El; [|lia|exact Hfit].
  destruct El as (js & je & -> & -> & Hj & Hje & Hs & He).
  destruct (window_occurrence i span js je ms (original item) Hj Hje Hidx Hs He)
    as (a & b & Hw & Hoff & Hla & Hlb).
  assert (Hsp : (Z.of_nat (i + je) - Z.of_nat (i + js) + 1)%Z
                = Z.of_nat (S (je - js))) by lia.
  rewrite Hsp, offsetOf_eq.
  cbn [matches processed]. split.
  - apply Forall_app. split; [exact HF|]. constructor; [|constructor].
    unfold matchSound.
    cbn [startNodeIndex actualSpan m_original m_replacement offsetInFirstNode].
    rewrite Nat2Z.id.
    split; [lia|]. split; [lia|]. split; [destruct item; exact Hin|].
    exists a, b. split; [exact Hw|]. split; [exact Hoff|].
    split; [exact Hla|].
    replace (i + js + S (je - js) - 1) with (i + je) by lia. exact Hlb.
  - destruct Hcl as [Hc1 Hc2]. unfold claimedStarts. cbn [matches processed].
    split.
    + apply Forall_app. split.
      * eapply Forall_impl; [exact Hc1|]. intros m Hm. cbn beta in *.
        apply markProcessed_has. left. exact Hm.
      * constructor; [|constructor]. cbn [startNodeIndex].
        apply markProcessed_has. right. rewrite Nat2Z.id. lia.
    + rewrite map_app. cbn [List.map startNodeIndex].
      apply NoDup_app. split; [exact Hc2|]. split.
      * intros x Hx Hx'. apply list_elem_of_In in Hx'. destruct Hx' as [<-|[]].
        apply list_elem_of_In, in_map_iff in Hx as (m & Hm1 & Hm2).
        rewrite Forall_forall in Hc1.
        specialize (Hc1 m (proj2 (list_elem_of_In _ _) Hm2)).
        cbn beta in Hc1. congruence.
      * apply NoDup_singleton.
Qed.

Lemma trySpans_sound (all : list Redaction) (i : nat) :
  (forall r, In r all -> original r <> []) ->
  forall spans st,
    Forall (fun span => 1 <= span <= 5 /\ i + span <= List.length textNodes)
           spans ->
    Forall (matchSound textNodes all) (matches st) -> claimedStarts st ->
    Forall (matchSound textNodes all)
           (matches (trySpans textNodes i spans all st))
    /\ claimedStarts (trySpans textNodes i spans all st).
Proof.
  intros Hall. induction spans as [|span spans IH]; intros st Hsp HF Hcl;
    cbn [trySpans]; [split; assumption|].
  inversion Hsp as [|? ? [H1 H2] Hsp']; subst.
  destruct (tryRules_sound all i span H1 H2 all st) as [HF' Hcl'];
    [intros r Hr; split; [exact Hr | exact (Hall r Hr)] | exact HF | exact Hcl |].
  destruct (has _ i); [split; assumption | apply IH; assumption].
Qed.

Lemma scanNodes_sound (all : list Redaction) :
  (forall r, In r all -> original r <> []) ->
  forall starts st,
    Forall (matchSound textNodes all) (matches st) -> claimedStarts st ->
    Forall (matchSound textNodes all)
           (matches (scanNodes textNodes starts all st))
    /\ claimedStarts (scanNodes textNodes starts all st).
Proof.
  intros Hall. induction starts as [|i starts IH]; intros st HF Hcl;
    cbn [scanNodes]; [split; assumption|].
  destruct (has (processed st) i); [apply IH; assumption|].
  destruct (trySpans_sound all i Hall
              (seq 1 (Nat.min 5 (List.length textNodes - i))) st)
    as [HF' Hcl']; [|exact HF|exact Hcl|apply IH; assumption].
  rewrite Forall_forall. intros span Hsp.
  apply list_elem_of_In, in_seq in Hsp. lia.
Qed.

End MatcherSoundness.

(** X8.  When no rule has an empty original, every match of a pass is
    sound: it spans between one and five existing nodes, it carries the two
    texts of a rule of the list, and the text of the nodes it spans holds
    its original at the offset it names, starting inside the first of them
    and ending inside the last. *)
Theorem findMatches_sound (textNodes : list TextNode)
        (redactions : list Redaction) :
  Forall (fun r => original r <> []) redactions ->
  Forall (matchSound textNodes redactions) (findMatches textNodes redactions).
Proof.
  intros H. unfold findMatches.
  apply scanNodes_sound.
  - intros r Hr. rewrite Forall_forall in H.
    apply H, list_elem_of_In. exact Hr.
  - constructor.
  - split; constructor.
Qed.

Lemma findMatches_sound_witness :
  Forall (fun r => original r <> []) [rule "Scott" "[NAME]"]
  /\ Forall (matchSound (textNodesOf scottMarkup) [rule "Scott" "[NAME]"])
            (findMatches (textNodesOf scottMarkup) [rule "Scott" "[NAME]"]).
Proof.
  assert (H : Forall (fun r => original r <> []) [rule "Scott" "[NAME]"])
    by (repeat constructor; discriminate).
  split; [exact H|].
  exact (findMatches_sound (textNodesOf scottMarkup) [rule "Scott" "[NAME]"] H).
Defined.

(** X9.  When no rule has an empty original, no two matches of a pass
    start in the same node: this, and not the disjointness of the whole
    ranges, is what the guard of line 142 gives. *)
Theorem findMatches_distinct_starts (textNodes : list TextNode)
        (redactions : list Redaction) :
  Forall (fun r => original r <> []) redactions ->
  NoDup (List.map startNodeIndex (findMatches textNodes redactions)).
Proof.
  intros H. unfold findMatches.
  apply scanNodes_sound.
  - intros r Hr. rewrite Forall_forall in H.
    apply H, list_elem_of_In. exact Hr.
  - constructor.
  - split; constructor.
Qed.

Lemma findMatches_distinct_starts_witness :
  Forall (fun r => original r <> []) overlapRules
  /\ NoDup (List.map startNodeIndex
                     (findMatches (textNodesOf overlapMarkup) overlapRules)).
Proof.
  assert (H : Forall (fun r => original r <> []) overlapRules)
    by (repeat constructor; discriminate).
  split; [exact H|].
  exact (findMatches_distinct_starts (textNodesOf overlapMarkup) overlapRules H).
Defined.

(* ===================================================================== *)
(** ** Splitting and joining *)
(* ===================================================================== *)

Section SplitJoinFacts.

Lemma splitAux_cons (sep s : jsstring) (skip : nat) (cur : jsstring) :
  exists p rest, splitAux sep s skip cur = p :: rest.
Proof.
  revert skip cur; induction s as [|c s IH]; intros skip cur; cbn [splitAux].
  - eauto.
  - destruct skip as [|k]; [|apply IH].
    destruct (startsWith sep (c :: s)); [eauto | apply IH].
Qed.

Lemma join_cons (p : jsstring) (rest : list jsstring) (glue : jsstring) :
  rest <> [] -> join (p :: rest) glue = p ++ glue ++ join rest glue.
Proof. destruct rest; [contradiction | reflexivity]. Qed.

Lemma splitAux_join (sep : jsstring) :
  sep <> [] ->
  forall s skip cur,
    join (splitAux sep s skip cur) sep = rev cur ++ skipn skip s.
Proof.
  intros Hsep. induction s as [|c s IH]; intros skip cur; cbn [splitAux].
  - destruct skip; cbn [join skipn]; rewrite app_nil_r; reflexivity.
  - destruct skip as [|k]; [|rewrite IH; reflexivity].
    destruct (startsWith sep (c :: s)) eqn:E.
    + destruct (splitAux_cons sep s (List.length sep - 1) []) as (p & rest & Hp).
      rewrite join_cons by (rewrite Hp; discriminate).
      rewrite IH. apply startsWith_true in E as [r Hr].
      destruct sep as [|d sep']; [contradiction|].
      injection Hr as -> ->. cbn [List.length rev app skipn].
      rewrite Nat.sub_succ, Nat.sub_0_r.
      rewrite skipn_app, skipn_all, Nat.sub_diag. reflexivity.
    + rewrite IH. cbn [rev skipn]. rewrite <- app_assoc. reflexivity.
Qed.

(** Splitting a string and joining the pieces with the separator gives
    the string back. *)
Lemma split_join_same (s sep : jsstring) : join (split s sep) sep = s.
Proof.
  destruct sep as [|d sep].
  - cbn [split]. induction s as [|c [|c' s] IH]; [reflexivity | reflexivity |].
    cbn [List.map] in *. rewrite join_cons by discriminate.
    rewrite IH. reflexivity.
  - unfold split. rewrite splitAux_join by discriminate. reflexivity.
Qed.

(** X10.  A rule whose replacement is its original changes nothing in the
    residual pass, whatever the markup is; an empty original with an empty
    replacement is such a rule. *)
Theorem residualRule_same_text (item : Redaction) (xml : jsstring) :
  replacement item = original item ->
  residualRule item xml = xml.
Proof.
  intros H. unfold residualRule.
  rewrite (replaceTTags_id _ (fun _ => True)) with (pos := 0).
  - reflexivity.
  - intros [] o b _. cbn [fst]. rewrite H, split_join_same. reflexivity.
  - rewrite Forall_forall. intros n _. exact I.
Qed.

Lemma residualRule_same_text_witness :
  replacement (rule "ab" "ab") = original (rule "ab" "ab")
  /\ residualRule (rule "ab" "ab") abcMarkup = abcMarkup.
Proof.
  split; [reflexivity|].
  exact (residualRule_same_text (rule "ab" "ab") abcMarkup eq_refl).
Defined.

End SplitJoinFacts.

(* ===================================================================== *)
(** ** The coverage check of the whitelist *)
(* ===================================================================== *)

(** X11.  A content is covered exactly when the whitelist has an item that
    is a part of the content or that the content is a part of.  So an
    empty whitelist covers nothing, an empty item in the whitelist covers
    every content, and the empty content is covered by every whitelist
    that is not empty. *)
Theorem isCoveredByWhitelist_spec (whitelist : list jsstring)
        (body : jsstring) :
  (isCoveredByWhitelist whitelist body = true
   <-> exists item,
        In item whitelist
        /\ ((exists a b, body = a ++ item ++ b)
            \/ (exists a b, item = a ++ body ++ b)))
  /\ isCoveredByWhitelist [] body = false
  /\ (In [] whitelist -> isCoveredByWhitelist whitelist body = true)
  /\ (whitelist <> [] -> isCoveredByWhitelist whitelist [] = true).
Proof.
  assert (Hiff : forall wl b,
             isCoveredByWhitelist wl b = true
             <-> exists item,
                 In item wl
                 /\ ((exists x y, b = x ++ item ++ y)
                     \/ (exists x y, item = x ++ b ++ y))).
  { induction wl as [|it wl IH]; intros b; cbn [isCoveredByWhitelist].
    - split; [discriminate | intros (? & [] & _)].
    - destruct (includes b it || includes it b) eqn:E.
      + split; [intros _|reflexivity]. exists it. split; [left; reflexivity|].
        apply orb_true_iff in E as [E|E]; apply includes_true_iff in E; auto.
      + rewrite IH. apply orb_false_iff in E as [E1 E2]. split.
        * intros (item & Hin & Hc). exists item. split; [right; exact Hin | exact Hc].
        * intros (item & [<-|Hin] & Hc); [|exists item; split; assumption].
          destruct Hc as [Hc|Hc]; apply includes_true_iff in Hc; congruence. }
  split; [apply Hiff|]. split; [reflexivity|]. split.
  - intros Hin. apply Hiff. exists []. split; [exact Hin|].
    left. exists [], body. reflexivity.
  - intros Hne. destruct whitelist as [|it wl]; [contradiction|].
    apply Hiff. exists it. split; [left; reflexivity|].
    right. exists [], it. reflexivity.
Qed.

(* ===================================================================== *)
(** ** No leaf is passed over *)
(* ===================================================================== *)

Lemma matchTTag_nil : matchTTag [] = None.
Proof. reflexivity. Qed.

(** A place of the suffix [s] where the pattern matches, at or after
    [lastIndex], lies inside a node that is found. *)
Lemma execAll_covers :
  forall s pos li q openTag body,
    matchTTag (skipn q s) = Some (openTag, body) ->
    li <= pos + q ->
    exists n, In n (execAll s pos li)
              /\ startIndex n <= pos + q < endIndex n.
Proof.
  induction s as [|c s IH]; intros pos li q o b Hm Hli.
  - rewrite skipn_nil in Hm. discriminate.
  - cbn [execAll]. destruct (pos <? li) eqn:Elt.
    + apply Nat.ltb_lt in Elt. destruct q as [|q]; [lia|].
      cbn [skipn] in Hm.
      destruct (IH (S pos) li q o b Hm ltac:(lia)) as (n & Hn & Hr).
      exists n. split; [exact Hn | lia].
    + apply Nat.ltb_ge in Elt.
      destruct (matchTTag (c :: s)) as [[o' b']|] eqn:Hhead.
      * set (full := o' ++ b' ++ T_CLOSE).
        destruct (Nat.lt_ge_cases q (List.length full)) as [Hq|Hq].
        -- eexists. split; [left; reflexivity|].
           cbn [startIndex endIndex]. fold full. lia.
        -- assert (Hfl : 1 <= List.length full).
           { unfold full. rewrite !length_app, T_CLOSE_length. lia. }
           destruct q as [|q]; [lia|]. cbn [skipn] in Hm.
           destruct (IH (S pos) (pos + List.length full) q o b Hm ltac:(lia))
             as (n & Hn & Hr).
           exists n. split; [right; exact Hn | lia].
      * destruct q as [|q].
        -- cbn [skipn] in Hm. congruence.
        -- cbn [skipn] in Hm.
           destruct (IH (S pos) li q o b Hm ltac:(lia)) as (n & Hn & Hr).
           exists n. split; [exact Hn | lia].
Qed.

(** X12.  The extractor passes over no leaf: every position of the markup
    at which the pattern matches is the start of a node it returns or lies
    inside one. *)
Theorem extractTextNodes_covers (re : RegExp) (xml : jsstring) (q : nat)
        (openTag body : jsstring) :
  matchTTag (skipn q xml) = Some (openTag, body) ->
  exists n, In n (fst (extractTextNodes re xml))
            /\ startIndex n <= q < endIndex n.
Proof.
  intros H. unfold extractTextNodes. cbn [fst setLastIndex lastIndex].
  exact (execAll_covers xml 0 0 q openTag body H (Nat.le_0_l _)).
Qed.

Lemma extractTextNodes_covers_witness :
  matchTTag (skipn 29 abcMarkup) = Some (str "<w:t>", str "c")
  /\ exists n, In n (fst (extractTextNodes (mkRegExp 9) abcMarkup))
               /\ startIndex n <= 29 < endIndex n.
Proof.
  assert (H : matchTTag (skipn 29 abcMarkup) = Some (str "<w:t>", str "c"))
    by (vm_compute; reflexivity).
  split; [exact H|].
  exact (extractTextNodes_covers (mkRegExp 9) abcMarkup 29 _ _ H).
Defined.

(* ===================================================================== *)
(** ** The residual pass on the leaves *)
(* ===================================================================== *)

Section RewriteFacts.

Lemma spanWhile_app_stop (p : N -> bool) (a r : jsstring) (x : N) :
  Forall (fun c => p c = true) a -> p x = false ->
  spanWhile p (a ++ x :: r) = (a, x :: r).
Proof.
  intros Ha Hx. induction Ha as [|c a Hc _ IH]; cbn [app spanWhile].
  - rewrite Hx. reflexivity.
  - rewrite Hc, IH. reflexivity.
Qed.

Lemma notGT_all (l : jsstring) :
  Forall (fun c => c <> GT) l -> Forall (fun c => notGT c = true) l.
Proof.
  intros H. eapply Forall_impl; [exact H|]. intros c Hc. cbn beta in *.
  unfold notGT. apply negb_true_iff, N.eqb_neq. exact Hc.
Qed.

Lemma notLT_all (l : jsstring) :
  Forall (fun c => c <> LT) l -> Forall (fun c => notLT c = true) l.
Proof.
  intros H. eapply Forall_impl; [exact H|]. intros c Hc. cbn beta in *.
  unfold notLT. apply negb_true_iff, N.eqb_neq. exact Hc.
Qed.

(** The pattern matches every text of the shape of a leaf. *)
Lemma matchTTag_intro (attrs body rest : jsstring) :
  Forall (fun c => c <> GT) attrs -> Forall (fun c => c <> LT) body ->
  matchTTag ((T_OPEN ++ attrs ++ [GT]) ++ body ++ T_CLOSE ++ rest)
  = Some (T_OPEN ++ attrs ++ [GT], body).
Proof.
  intros Ha Hb. unfold matchTTag.
  change (startsWith T_OPEN ((T_OPEN ++ attrs ++ [GT]) ++ body ++ T_CLOSE ++ rest))
    with true. cbv iota.
  change (skipn (List.length T_OPEN)
                ((T_OPEN ++ attrs ++ [GT]) ++ body ++ T_CLOSE ++ rest))
    with ((attrs ++ [GT]) ++ body ++ T_CLOSE ++ rest).
  rewrite <- app_assoc. cbn [app].
  rewrite (spanWhile_app_stop notGT attrs _ GT (notGT_all _ Ha) eq_refl).
  change (T_CLOSE ++ rest) with (LT :: skipn 1 T_CLOSE ++ rest).
  rewrite (spanWhile_app_stop notLT body _ LT (notLT_all _ Hb) eq_refl).
  reflexivity.
Qed.

Lemma replaceTTags_skip {St : Type}
      (cb : St -> jsstring -> jsstring -> jsstring * St) :
  forall s skip st,
    replaceTTags cb s skip st = replaceTTags cb (skipn skip s) 0 st.
Proof.
  induction s as [|c s IH]; intros skip st.
  - destruct skip; reflexivity.
  - destruct skip as [|k]; [reflexivity|]. cbn [replaceTTags skipn]. apply IH.
Qed.

Variable g : jsstring -> jsstring.

Lemma rewriteLeaves_leaf (s openTag body rest : jsstring) :
  matchTTag s = Some (openTag, body) ->
  s = (openTag ++ body ++ T_CLOSE) ++ rest ->
  rewriteLeaves g s = openTag ++ g body ++ T_CLOSE ++ rewriteLeaves g rest.
Proof.
  intros Hm Hs. unfold rewriteLeaves.
  destruct s as [|c s']; [discriminate|].
  cbn [replaceTTags]. rewrite Hm, replaceTTags_skip.
  assert (Hl : 1 <= List.length (openTag ++ body ++ T_CLOSE)).
  { rewrite !length_app, T_CLOSE_length. lia. }
  destruct (openTag ++ body ++ T_CLOSE) as [|f full] eqn:Ef;
    [simpl in Hl; lia|].
  cbn [app] in Hs. injection Hs as -> ->.
  cbn [List.length]. rewrite Nat.sub_succ, Nat.sub_0_r.
  rewrite skipn_app, skipn_all, Nat.sub_diag. cbn [app].
  change (skipn 0 rest) with rest.
  rewrite <- !app_assoc. reflexivity.
Qed.

Lemma rewriteLeaves_copy (c : N) (s : jsstring) :
  matchTTag (c :: s) = None ->
  rewriteLeaves g (c :: s) = c :: rewriteLeaves g s.
Proof. intros Hm. unfold rewriteLeaves. cbn [replaceTTags]. rewrite Hm. reflexivity. Qed.

(** What the rewritten markup starts with when the markup starts with a
    leaf. *)
Lemma rewriteLeaves_head_leaf (s openTag body : jsstring) :
  matchTTag s = Some (openTag, body) ->
  exists attrs rest,
    openTag = T_OPEN ++ attrs ++ [GT]
    /\ Forall (fun c => c <> GT) attrs /\ Forall (fun c => c <> LT) body
    /\ s = (openTag ++ body ++ T_CLOSE) ++ rest
    /\ rewriteLeaves g s
       = openTag ++ g body ++ T_CLOSE ++ rewriteLeaves g rest.
Proof.
  intros Hm. destruct (matchTTag_prefix _ _ _ Hm) as [rest Hrest].
  destruct (matchTTag_shape _ _ _ Hm) as (attrs & Ho & Ha & Hb).
  exists attrs, rest. split; [exact Ho|]. split; [exact Ha|].
  split; [exact Hb|]. split; [exact Hrest|].
  apply rewriteLeaves_leaf; assumption.
Qed.

(** A code unit other than [<] at the head of the rewritten markup was
    copied from the head of the markup. *)
Lemma rewriteLeaves_head_copy (s t : jsstring) (x : N) :
  rewriteLeaves g s = x :: t -> x <> LT ->
  exists s', s = x :: s' /\ rewriteLeaves g s' = t.
Proof.
  intros H Hx. destruct s as [|c s']; [discriminate|].
  destruct (matchTTag (c :: s')) as [[o b]|] eqn:Hm.
  - destruct (rewriteLeaves_head_leaf _ _ _ Hm) as (attrs & rest & -> & _ & _ & _ & Hr).
    rewrite Hr in H. injection H as H _. exfalso. apply Hx. symmetry. exact H.
  - rewrite (rewriteLeaves_copy _ _ Hm) in H. injection H as -> <-.
    exists s'. split; reflexivity.
Qed.

Lemma first_split (x : N) (u1 u2 r1 r2 : jsstring) :
  Forall (fun c => c <> x) u1 -> Forall (fun c => c <> x) u2 ->
  u1 ++ x :: r1 = u2 ++ x :: r2 -> u1 = u2 /\ r1 = r2.
Proof.
  intros H1. revert u2. induction H1 as [|c u1 Hc _ IH]; intros u2 H2 He.
  - destruct H2 as [|d u2 Hd _]; cbn [app] in He.
    + injection He as ->. split; reflexivity.
    + injection He as <- _. contradiction.
  - destruct H2 as [|d u2 Hd H2]; cbn [app] in He.
    + injection He as -> _. contradiction.
    + injection He as -> He. destruct (IH _ H2 He) as [-> ->].
      split; reflexivity.
Qed.

(** A content and a closing tag at the head of the rewritten markup were
    copied. *)
Lemma rewriteLeaves_body_copy (body : jsstring) :
  Forall (fun c => c <> LT) body ->
  forall s rest',
    rewriteLeaves g s = body ++ T_CLOSE ++ rest' ->
    exists rest0, s = body ++ T_CLOSE ++ rest0.
Proof.
  induction 1 as [|x body Hx _ IH]; intros s rest' H.
  - cbn [app] in H. destruct s as [|c s']; [discriminate|].
    destruct (matchTTag (c :: s')) as [[o b]|] eqn:Hm.
    + destruct (rewriteLeaves_head_leaf _ _ _ Hm)
        as (attrs & rest & -> & _ & _ & _ & Hr).
      rewrite Hr in H. discriminate.
    + rewrite (rewriteLeaves_copy _ _ Hm) in H. injection H as -> H.
      apply rewriteLeaves_head_copy in H as (s1 & -> & H); [|discriminate].
      apply rewriteLeaves_head_copy in H as (s2 & -> & H); [|discriminate].
      apply rewriteLeaves_head_copy in H as (s3 & -> & H); [|discriminate].
      apply rewriteLeaves_head_copy in H as (s4 & -> & H); [|discriminate].
      apply rewriteLeaves_head_copy in H as (s5 & -> & H); [|discriminate].
      exists s5. reflexivity.
  - cbn [app] in H.
    apply rewriteLeaves_head_copy in H as (s' & -> & H); [|exact Hx].
    destruct (IH _ _ H) as [rest0 ->]. exists rest0. reflexivity.
Qed.

(** A tag end, a content and a closing tag behind a text without [>] in
    the rewritten markup come from the same in the markup. *)
Lemma rewriteLeaves_tag_back (u : jsstring) :
  Forall (fun c => c <> GT) u ->
  forall s body' rest',
    Forall (fun c => c <> LT) body' ->
    rewriteLeaves g s = u ++ GT :: body' ++ T_CLOSE ++ rest' ->
    exists body0 rest0,
      s = u ++ GT :: body0 ++ T_CLOSE ++ rest0
      /\ Forall (fun c => c <> LT) body0.
Proof.
  induction 1 as [|x u Hx Hu IH]; intros s body' rest' Hb H.
  - cbn [app] in H.
    apply rewriteLeaves_head_copy in H as (s' & -> & H); [|discriminate].
    destruct (rewriteLeaves_body_copy _ Hb _ _ H) as [rest0 ->].
    exists body', rest0. split; [reflexivity | exact Hb].
  - cbn [app] in H. destruct s as [|c s']; [discriminate|].
    destruct (matchTTag (c :: s')) as [[o b]|] eqn:Hm.
    + destruct (rewriteLeaves_head_leaf _ _ _ Hm)
        as (attrs & rest & -> & Ha & Hbb & Hs & Hr).
      rewrite Hr in H.
      replace ((T_OPEN ++ attrs ++ [GT]) ++ g b ++ T_CLOSE ++ rewriteLeaves g rest)
        with ((T_OPEN ++ attrs) ++ GT :: g b ++ T_CLOSE ++ rewriteLeaves g rest)
        in H by (rewrite <- !app_assoc; reflexivity).
      change (x :: u ++ GT :: body' ++ T_CLOSE ++ rest')
        with ((x :: u) ++ GT :: body' ++ T_CLOSE ++ rest') in H.
      apply first_split in H as [Hu' _].
      * exists b, rest. split; [|exact Hbb].
        rewrite Hs, <- Hu', <- !app_assoc. reflexivity.
      * apply Forall_app. split; [repeat constructor; discriminate | exact Ha].
      * constructor; assumption.
    + rewrite (rewriteLeaves_copy _ _ Hm) in H. injection H as -> H.
      destruct (IH _ _ _ Hb H) as (body0 & rest0 & -> & H0).
      exists body0, rest0. split; [reflexivity | exact H0].
Qed.

(** Where the markup has no leaf, the rewritten markup has none. *)
Lemma rewriteLeaves_no_new_leaf (c : N) (s : jsstring) :
  matchTTag (c :: s) = None ->
  matchTTag (c :: rewriteLeaves g s) = None.
Proof.
  intros Hm. destruct (matchTTag (c :: rewriteLeaves g s)) as [[o b]|] eqn:E;
    [|reflexivity]. exfalso.
  destruct (matchTTag_prefix _ _ _ E) as [rest' Hrest].
  destruct (matchTTag_shape _ _ _ E) as (attrs & -> & Ha & Hb).
  rewrite <- !app_assoc in Hrest. cbn [T_OPEN app] in Hrest.
  injection Hrest as -> Hrest.
  assert (Hu : Forall (fun c => c <> GT) (119%N :: 58%N :: 116%N :: attrs))
    by (repeat (constructor; [discriminate|]); exact Ha).
  destruct (rewriteLeaves_tag_back _ Hu s b rest' Hb Hrest)
    as (body0 & rest0 & -> & H0).
  pose proof (matchTTag_intro attrs body0 rest0 Ha H0) as Hi.
  rewrite <- !app_assoc in Hi. cbn [T_OPEN app] in Hi, Hm.
  congruence.
Qed.

End RewriteFacts.

Section RewriteLaws.

Variable g : jsstring -> jsstring.
Hypothesis g_keeps_content :
  forall body, Forall (fun c => c <> LT) body -> Forall (fun c => c <> LT) (g body).

(** Rewriting the leaves by [g] and then by [h] is rewriting them by [h]
    after [g]: the leaves of the rewritten markup are the rewritten leaves
    of the markup. *)
Lemma rewriteLeaves_compose (h : jsstring -> jsstring) :
  forall s,
    rewriteLeaves h (rewriteLeaves g s) = rewriteLeaves (fun b => h (g b)) s.
Proof.
  assert (H : forall n s, List.length s <= n ->
                rewriteLeaves h (rewriteLeaves g s)
                = rewriteLeaves (fun b => h (g b)) s).
  { induction n as [|n IH]; intros s Hn.
    - destruct s; [reflexivity | simpl in Hn; lia].
    - destruct s as [|c s']; [reflexivity|].
      destruct (matchTTag (c :: s')) as [[o b]|] eqn:Hm.
      + destruct (rewriteLeaves_head_leaf g _ _ _ Hm)
          as (attrs & rest & Ho & Ha & Hb & Hs & Hr).
        rewrite Hr. rewrite (rewriteLeaves_leaf _ _ _ _ _ Hm Hs).
        assert (Hlen : List.length rest <= n).
        { apply (f_equal (@List.length N)) in Hs.
          rewrite !length_app, T_CLOSE_length in Hs. simpl in Hs, Hn. lia. }
        pose proof (matchTTag_intro attrs (g b) (rewriteLeaves g rest) Ha
                                    (g_keeps_content b Hb)) as Hi.
        rewrite <- Ho in Hi.
        rewrite (rewriteLeaves_leaf h _ o (g b) (rewriteLeaves g rest)).
        * rewrite (IH rest Hlen). reflexivity.
        * exact Hi.
        * rewrite <- !app_assoc. reflexivity.
      + rewrite !(rewriteLeaves_copy _ _ _ Hm).
        rewrite (rewriteLeaves_copy h c _ (rewriteLeaves_no_new_leaf g _ _ Hm)).
        rewrite (IH s'); [reflexivity | simpl in Hn; lia]. }
  intros s. exact (H (List.length s) s (Nat.le_refl _)).
Qed.

Lemma execAll_shift (d : nat) :
  forall s pos li,
    List.map content (execAll s (pos + d) (li + d))
    = List.map content (execAll s pos li).
Proof.
  induction s as [|c s IH]; intros pos li; [reflexivity|].
  cbn [execAll].
  replace (pos + d <? li + d) with (pos <? li)
    by (destruct (pos <? li) eqn:E;
        [apply Nat.ltb_lt in E; symmetry; apply Nat.ltb_lt; lia
        |apply Nat.ltb_ge in E; symmetry; apply Nat.ltb_ge; lia]).
  destruct (pos <? li).
  - apply (IH (S pos) li).
  - destruct (matchTTag (c :: s)) as [[o b]|].
    + cbn [List.map content]. f_equal.
      replace (pos + d + List.length (o ++ b ++ T_CLOSE))
        with (pos + List.length (o ++ b ++ T_CLOSE) + d) by lia.
      apply (IH (S pos)).
    + apply (IH (S pos) li).
Qed.

Lemma execAll_from_0 (s : jsstring) (pos : nat) :
  List.map content (execAll s pos pos) = List.map content (execAll s 0 0).
Proof. exact (execAll_shift pos s 0 0). Qed.

Lemma execAll_skip_contents (pre rest : jsstring) :
  forall pos,
    List.map content (execAll (pre ++ rest) pos (pos + List.length pre))
    = List.map content (execAll rest 0 0).
Proof.
  induction pre as [|x pre IH]; intros pos.
  - cbn [app List.length]. rewrite Nat.add_0_r. apply execAll_from_0.
  - cbn [app execAll List.length].
    assert (E : (pos <? pos + S (List.length pre)) = true)
      by (apply Nat.ltb_lt; lia).
    rewrite E. replace (pos + S (List.length pre))
      with (S pos + List.length pre) by lia.
    apply IH.
Qed.

Lemma leafContents_leaf (s openTag body rest : jsstring) :
  matchTTag s = Some (openTag, body) ->
  s = (openTag ++ body ++ T_CLOSE) ++ rest ->
  leafContents s = body :: leafContents rest.
Proof.
  intros Hm Hs. unfold leafContents. destruct s as [|c s']; [discriminate|].
  cbn [execAll]. rewrite Nat.ltb_irrefl, Hm. cbn [List.map content]. f_equal.
  assert (Hl : 1 <= List.length (openTag ++ body ++ T_CLOSE))
    by (rewrite !length_app, T_CLOSE_length; lia).
  destruct (openTag ++ body ++ T_CLOSE) as [|f full]; [simpl in Hl; lia|].
  cbn [app] in Hs. injection Hs as -> ->. cbn [List.length Nat.add].
  replace (S (List.length full)) with (1 + List.length full) by lia.
  apply execAll_skip_contents.
Qed.

Lemma leafContents_copy (c : N) (s : jsstring) :
  matchTTag (c :: s) = None -> leafContents (c :: s) = leafContents s.
Proof.
  intros Hm. unfold leafContents. cbn [execAll].
  rewrite Nat.ltb_irrefl, Hm.
  rewrite (execAll_past s 1 0 1) by lia. apply execAll_from_0.
Qed.

(** The contents of the leaves of the rewritten markup are the rewritten
    contents of the leaves of the markup, leaf by leaf. *)
Lemma leafContents_rewriteLeaves :
  forall s, leafContents (rewriteLeaves g s) = List.map g (leafContents s).
Proof.
  assert (H : forall n s, List.length s <= n ->
                leafContents (rewriteLeaves g s) = List.map g (leafContents s)).
  { induction n as [|n IH]; intros s Hn.
    - destruct s; [reflexivity | simpl in Hn; lia].
    - destruct s as [|c s']; [reflexivity|].
      destruct (matchTTag (c :: s')) as [[o b]|] eqn:Hm.
      + destruct (rewriteLeaves_head_leaf g _ _ _ Hm)
          as (attrs & rest & Ho & Ha & Hb & Hs & Hr).
        rewrite Hr, (leafContents_leaf _ _ _ _ Hm Hs).
        assert (Hlen : List.length rest <= n).
        { apply (f_equal (@List.length N)) in Hs.
          rewrite !length_app, T_CLOSE_length in Hs. simpl in Hs, Hn. lia. }
        pose proof (matchTTag_intro attrs (g b) (rewriteLeaves g rest) Ha
                                    (g_keeps_content b Hb)) as Hi.
        rewrite <- Ho in Hi.
        rewrite (leafContents_leaf _ o (g b) (rewriteLeaves g rest)).
        * cbn [List.map]. rewrite (IH rest Hlen). reflexivity.
        * exact Hi.
        * rewrite <- !app_assoc. reflexivity.
      + rewrite (rewriteLeaves_copy _ _ _ Hm).
        rewrite (leafContents_copy c _ (rewriteLeaves_no_new_leaf g _ _ Hm)).
        rewrite (leafContents_copy _ _ Hm).
        apply IH. simpl in Hn. lia. }
  intros s. exact (H (List.length s) s (Nat.le_refl _)).
Qed.

End RewriteLaws.

Section ResidualOnLeaves.

Variable P : N -> Prop.

Lemma join_Forall (glue : jsstring) :
  Forall P glue ->
  forall parts, Forall (Forall P) parts -> Forall P (join parts glue).
Proof.
  intros Hg. induction parts as [|p parts IH]; intros H; [constructor|].
  inversion H as [|? ? Hp Hr]; subst.
  destruct parts as [|q parts]; [exact Hp|].
  change (join (p :: q :: parts) glue) with (p ++ glue ++ join (q :: parts) glue).
  apply Forall_app. split; [exact Hp|].
  apply Forall_app. split; [exact Hg | exact (IH Hr)].
Qed.

Lemma splitAux_Forall (sep : jsstring) :
  forall s skip cur,
    Forall P s -> Forall P cur -> Forall (Forall P) (splitAux sep s skip cur).
Proof.
  induction s as [|c s IH]; intros skip cur Hs Hc; cbn [splitAux].
  - constructor; [apply Forall_rev; exact Hc | constructor].
  - inversion Hs as [|? ? Hx Hs']; subst.
    destruct skip as [|k]; [|apply IH; assumption].
    destruct (startsWith sep (c :: s)).
    + constructor; [apply Forall_rev; exact Hc|].
      apply IH; [exact Hs' | constructor].
    + apply IH; [exact Hs' | constructor; assumption].
Qed.

(** A rule makes of a content a text of the code units of the content and
    of its replacement. *)
Lemma applyRule_Forall (item : Redaction) (body : jsstring) :
  Forall P (replacement item) -> Forall P body ->
  Forall P (applyRule item body).
Proof.
  intros Hr Hb. unfold applyRule. apply join_Forall; [exact Hr|].
  unfold split. destruct (original item) as [|d sep].
  - clear -Hb. induction Hb as [|c body Hc _ IH]; cbn [List.map];
      constructor; [repeat constructor; exact Hc | exact IH].
  - apply splitAux_Forall; [exact Hb | constructor].
Qed.

End ResidualOnLeaves.

(** X13.  When no replacement contains [<], the residual pass keeps the
    leaves and changes their contents only: the text leaves of its output
    are those of its input, in the same order, each with the content that
    the rules, applied one after the other by split and join, make of the
    leaf's own content; and the markup outside the contents of the leaves
    is the same before and after. *)
Theorem residualPass_on_leaves (xml : jsstring) (redactions : list Redaction) :
  Forall (fun item => Forall (fun c => c <> LT) (replacement item)) redactions ->
  leafContents (residualPass xml redactions)
  = List.map (fun body => fold_left (fun acc item => applyRule item acc)
                                    redactions body)
             (leafContents xml)
  /\ emptyLeaves (residualPass xml redactions) = emptyLeaves xml.
Proof.
  intros H. revert xml. unfold residualPass.
  induction H as [|item rest Hi _ IH]; intros xml; cbn [fold_left].
  - split; [|reflexivity]. symmetry. apply map_id.
  - assert (Hk : forall body, Forall (fun c => c <> LT) body ->
                              Forall (fun c => c <> LT) (applyRule item body))
      by (intros body Hb; apply applyRule_Forall; assumption).
    change (residualRule item xml) with (rewriteLeaves (applyRule item) xml).
    destruct (IH (rewriteLeaves (applyRule item) xml)) as [Hc He].
    split.
    + rewrite Hc, (leafContents_rewriteLeaves _ Hk), map_map. reflexivity.
    + rewrite He. unfold emptyLeaves.
      apply (rewriteLeaves_compose _ Hk (fun _ => [])).
Qed.

Lemma residualPass_on_leaves_witness :
  Forall (fun item => Forall (fun c => c <> LT) (replacement item))
         [rule "b" "X"; rule "aX" "Y>"]
  /\ leafContents (residualPass abcMarkup [rule "b" "X"; rule "aX" "Y>"])
     = [str "Y>"; str "c"]
  /\ emptyLeaves (residualPass abcMarkup [rule "b" "X"; rule "aX" "Y>"])
     = str "<w:r><w:t></w:t></w:r><w:r><w:t></w:t></w:r>".
Proof.
  assert (H : Forall (fun item => Forall (fun c => c <> LT) (replacement item))
                     [rule "b" "X"; rule "aX" "Y>"])
    by (vm_compute; repeat constructor; discriminate).
  pose proof (residualPass_on_leaves abcMarkup _ H) as [Hc He].
  split; [exact H|]. split.
  - rewrite Hc. vm_compute. reflexivity.
  - rewrite He. vm_compute. reflexivity.
Defined.

(* ===================================================================== *)
(** ** The region of a match over several fragments *)
(* ===================================================================== *)

Ltac app_norm :=
  repeat (progress (repeat rewrite <- app_assoc; cbn [app])).

Ltac app_norm_in H :=
  repeat (progress (repeat rewrite <- app_assoc in H; cbn [app] in H)).

Section RegionFacts.

Lemma substring_le (s : jsstring) (a b : nat) :
  a <= b -> substring s a b = firstn (b - a) (skipn a s).
Proof.
  intros Hab. unfold substring.
  destruct (Nat.le_gt_cases b (List.length s)) as [Hb|Hb].
  - replace (Nat.min (Nat.min a (List.length s)) (Nat.min b (List.length s)))
      with a by lia.
    replace (Nat.max (Nat.min a (List.length s)) (Nat.min b (List.length s)) - a)
      with (b - a) by lia.
    reflexivity.
  - destruct (Nat.le_gt_cases a (List.length s)) as [Ha|Ha].
    + replace (Nat.min (Nat.min a (List.length s)) (Nat.min b (List.length s)))
        with a by lia.
      replace (Nat.max (Nat.min a (List.length s)) (Nat.min b (List.length s)) - a)
        with (List.length s - a) by lia.
      rewrite !firstn_all2; [reflexivity | |]; rewrite length_skipn; lia.
    + replace (Nat.min (Nat.min a (List.length s)) (Nat.min b (List.length s)))
        with (List.length s) by lia.
      replace (Nat.max (Nat.min a (List.length s)) (Nat.min b (List.length s))
               - List.length s) with 0 by lia.
      rewrite (skipn_all2 s (n:=a)) by lia.
      rewrite firstn_nil. reflexivity.
Qed.

Lemma firstn_plus {A : Type} (n m : nat) (l : list A) :
  firstn (n + m) l = firstn n l ++ firstn m (skipn n l).
Proof.
  revert l. induction n as [|n IH]; intros l; [reflexivity|].
  destruct l as [|x l]; cbn [Nat.add firstn skipn app].
  - rewrite firstn_nil. reflexivity.
  - rewrite IH. reflexivity.
Qed.

Lemma matchTTag_length (s openTag body : jsstring) :
  matchTTag s = Some (openTag, body) -> 11 <= List.length s.
Proof.
  intros H. destruct (matchTTag_prefix _ _ _ H) as [rest Hs].
  destruct (matchTTag_shape _ _ _ H) as (attrs & Ho & _ & _).
  rewrite Hs, Ho, !length_app, T_CLOSE_length.
  change (List.length T_OPEN) with 4. cbn [List.length]. lia.
Qed.

(** A leaf at the head of a text is a leaf at the head of every text that
    goes on behind it. *)
Lemma matchTTag_app (s x openTag body : jsstring) :
  matchTTag s = Some (openTag, body) ->
  matchTTag (s ++ x) = Some (openTag, body).
Proof.
  intros H. destruct (matchTTag_prefix _ _ _ H) as [rest Hs].
  destruct (matchTTag_shape _ _ _ H) as (attrs & Ho & Ha & Hb).
  rewrite Hs, Ho.
  replace ((((T_OPEN ++ attrs ++ [GT]) ++ body ++ T_CLOSE) ++ rest) ++ x)
    with ((T_OPEN ++ attrs ++ [GT]) ++ body ++ T_CLOSE ++ rest ++ x)
    by (rewrite <- !app_assoc; reflexivity).
  apply matchTTag_intro; assumption.
Qed.

(** Behind the first [>] of a text stands all that stands behind any of
    its [>]. *)
Lemma first_GT_tail (l1 c u r : jsstring) :
  Forall (fun x => x <> GT) l1 ->
  l1 ++ GT :: c = u ++ GT :: r -> exists m, c = m ++ r.
Proof.
  intros H. revert u. induction H as [|x l1 Hx _ IH]; intros u He.
  - destruct u as [|y u]; cbn [app] in He.
    + injection He as ->. exists []. reflexivity.
    + injection He as _ ->. exists (u ++ [GT]).
      rewrite <- app_assoc. reflexivity.
  - destruct u as [|y u]; cbn [app] in He.
    + injection He as -> _. contradiction.
    + injection He as _ He. exact (IH _ He).
Qed.

Lemma endsLeaf_tl (body : jsstring) (c : N) (t : jsstring) :
  endsLeaf body (c :: t) -> endsLeaf body t.
Proof.
  intros [[u Hu] | [p Hp]].
  - destruct u as [|y u]; cbn [app] in Hu.
    + injection Hu as _ ->. right. exists []. reflexivity.
    + injection Hu as _ ->. left. exists u. reflexivity.
  - right. exists (p ++ [c]). rewrite <- app_assoc. exact Hp.
Qed.

Lemma endsLeaf_app (body a t : jsstring) :
  endsLeaf body (a ++ t) -> endsLeaf body t.
Proof.
  induction a as [|c a IH]; [trivial|].
  intros H. apply IH. exact (endsLeaf_tl _ _ _ H).
Qed.

(** A leaf found at the head of a text that reaches to the end of a leaf
    and goes on for fewer code units than a leaf has: the leaf found ends
    before the text goes on.  Behind the [>] of an opening tag the first
    [<] is that of the closing tag the text ends with, and a leaf's content
    and closing tag hold no start of a leaf. *)
Lemma matchTTag_within (body t extra openTag body' : jsstring) :
  Forall (fun c => c <> LT) body -> endsLeaf body t ->
  List.length extra < 11 ->
  matchTTag (t ++ extra) = Some (openTag, body') ->
  exists rest, t = (openTag ++ body' ++ T_CLOSE) ++ rest.
Proof.
  intros Hb He Hx Hm.
  destruct (matchTTag_prefix _ _ _ Hm) as [rest' Hp].
  destruct (matchTTag_shape _ _ _ Hm) as (attrs & Ho & Ha & Hc).
  destruct (app_eq_app _ _ _ _ Hp) as [l [[Ht Hr] | [Hf Hxl]]].
  - exists l. exact Ht.
  - destruct l as [|x l].
    + exists []. rewrite app_nil_r in Hf |- *. symmetry. exact Hf.
    + exfalso. destruct He as [[u Hu] | [p Hpt]].
      * assert (E : (T_OPEN ++ attrs) ++ GT :: (body' ++ T_CLOSE)
                    = u ++ GT :: ((body ++ T_CLOSE) ++ x :: l)).
        { rewrite Ho, Hu in Hf. app_norm_in Hf. app_norm. exact Hf. }
        assert (HG : Forall (fun c => c <> GT) (T_OPEN ++ attrs)).
        { apply Forall_app. split; [|exact Ha].
          unfold T_OPEN. repeat constructor; discriminate. }
        destruct (first_GT_tail _ _ _ _ HG E) as [m Hm2].
        assert (E2 : body' ++ T_CLOSE
                     = (m ++ body) ++ LT :: (skipn 1 T_CLOSE ++ x :: l)).
        { rewrite Hm2. unfold T_CLOSE. app_norm. reflexivity. }
        destruct (app_eq_app _ _ _ _ E2) as [k [[Hk1 Hk2] | [Hk1 Hk2]]].
        -- destruct k as [|y k].
           ++ apply (f_equal (@List.length N)) in Hk2.
              cbn [app] in Hk2. rewrite T_CLOSE_length in Hk2.
              cbn [List.length] in Hk2. rewrite length_app in Hk2.
              change (List.length (skipn 1 T_CLOSE)) with 5 in Hk2.
              cbn [List.length] in Hk2. lia.
           ++ cbn [app] in Hk2. injection Hk2 as Hy _. subst y.
              rewrite Hk1 in Hc. apply Forall_app in Hc as [_ Hc].
              inversion Hc as [|? ? Hne _]. apply Hne. reflexivity.
        -- apply (f_equal (@List.length N)) in Hk2.
           rewrite T_CLOSE_length, length_app in Hk2.
           cbn [List.length] in Hk2. rewrite length_app in Hk2.
           change (List.length (skipn 1 T_CLOSE)) with 5 in Hk2.
           cbn [List.length] in Hk2. lia.
      * destruct t as [|c t].
        { apply matchTTag_length in Hm. cbn [app] in Hm. lia. }
        assert (Hc0 : c = LT).
        { rewrite Ho in Hf. unfold T_OPEN in Hf. cbn [app] in Hf.
          injection Hf as Hf0 _. symmetry. exact Hf0. }
        subst c.
        assert (Ht : LT :: t = T_CLOSE).
        { destruct (app_eq_app _ _ _ _ Hpt) as [k [[Hk1 Hk2] | [Hk1 Hk2]]].
          - destruct k as [|y k]; [symmetry; exact Hk2|].
            exfalso. unfold T_CLOSE in Hk2. cbn [app] in Hk2.
            injection Hk2 as _ Hk2.
            assert (Hin : In LT [47; 119; 58; 116; 62]%N)
              by (rewrite Hk2; apply in_elt).
            cbn [In] in Hin.
            repeat (destruct Hin as [Hin|Hin]; [discriminate|]).
            exact Hin.
          - destruct k as [|y k]; [exact Hk2|].
            exfalso. cbn [app] in Hk2. injection Hk2 as Hy _. subst y.
            rewrite Hk1 in Hb. apply Forall_app in Hb as [_ Hb].
            inversion Hb as [|? ? Hne _]. apply Hne. reflexivity. }
        rewrite Ht in Hm. unfold matchTTag, T_CLOSE, T_OPEN in Hm.
        cbn in Hm. discriminate.
Qed.

(** Hence the text going on does not change what is found at the head. *)
Lemma matchTTag_app_extra (body t extra : jsstring) :
  Forall (fun c => c <> LT) body -> endsLeaf body t ->
  List.length extra < 11 ->
  matchTTag (t ++ extra) = matchTTag t.
Proof.
  intros Hb He Hx.
  destruct (matchTTag (t ++ extra)) as [[o b]|] eqn:E.
  - destruct (matchTTag_within _ _ _ _ _ Hb He Hx E) as [rest Ht].
    destruct (matchTTag_shape _ _ _ E) as (attrs & Ho & Ha & Hc).
    rewrite Ht, Ho. symmetry.
    replace (((T_OPEN ++ attrs ++ [GT]) ++ b ++ T_CLOSE) ++ rest)
      with ((T_OPEN ++ attrs ++ [GT]) ++ b ++ T_CLOSE ++ rest)
      by (rewrite <- !app_assoc; reflexivity).
    apply matchTTag_intro; assumption.
  - destruct (matchTTag t) as [[o b]|] eqn:E2; [|reflexivity].
    rewrite (matchTTag_app _ extra _ _ E2) in E. discriminate.
Qed.

Lemma replaceTTags_leaf {St : Type}
      (cb : St -> jsstring -> jsstring -> jsstring * St)
      (s openTag body rest : jsstring) (st : St) :
  matchTTag s = Some (openTag, body) ->
  s = (openTag ++ body ++ T_CLOSE) ++ rest ->
  replaceTTags cb s 0 st
  = fst (cb st openTag body)
    ++ replaceTTags cb rest 0 (snd (cb st openTag body)).
Proof.
  intros Hm Hs. destruct s as [|c s']; [discriminate|].
  cbn [replaceTTags]. rewrite Hm.
  destruct (cb st openTag body) as [out st']. cbn [fst snd].
  rewrite replaceTTags_skip.
  assert (Hl : 1 <= List.length (openTag ++ body ++ T_CLOSE)).
  { rewrite !length_app, T_CLOSE_length. lia. }
  destruct (openTag ++ body ++ T_CLOSE) as [|f full] eqn:Ef;
    [simpl in Hl; lia|].
  cbn [app] in Hs. injection Hs as -> ->.
  cbn [List.length]. rewrite Nat.sub_succ, Nat.sub_0_r.
  rewrite skipn_app, skipn_all, Nat.sub_diag. cbn [app].
  change (skipn 0 rest) with rest. reflexivity.
Qed.

Lemma replaceTTags_copy {St : Type}
      (cb : St -> jsstring -> jsstring -> jsstring * St)
      (c : N) (s : jsstring) (st : St) :
  matchTTag (c :: s) = None ->
  replaceTTags cb (c :: s) 0 st = c :: replaceTTags cb s 0 st.
Proof. intros Hm. cbn [replaceTTags]. rewrite Hm. reflexivity. Qed.

Lemma replaceTTags_short {St : Type}
      (cb : St -> jsstring -> jsstring -> jsstring * St) :
  forall s st, List.length s < 11 -> replaceTTags cb s 0 st = s.
Proof.
  induction s as [|c s IH]; intros st Hl; [reflexivity|].
  destruct (matchTTag (c :: s)) as [[o b]|] eqn:E.
  - apply matchTTag_length in E. lia.
  - rewrite (replaceTTags_copy cb _ _ st E). f_equal. apply IH.
    cbn [List.length] in Hl. lia.
Qed.

(** The first place a text occurs at in [s] is the first place it occurs
    at in every text that goes on behind [s]. *)
Lemma indexOf_app_occurs (s x pat : jsstring) :
  (exists a b, s = a ++ pat ++ b) ->
  indexOf (s ++ x) pat = indexOf s pat.
Proof.
  intros (a & b & Hs). unfold indexOf.
  destruct (indexOfFrom pat s 0) as [p|] eqn:E1.
  - destruct (indexOfFrom pat (s ++ x) 0) as [q|] eqn:E2.
    + f_equal.
      destruct (indexOfFrom_Some _ _ _ _ E1) as (a1 & b1 & Hs1 & Hp).
      destruct (indexOfFrom_Some _ _ _ _ E2) as (a2 & b2 & Hs2 & Hq).
      assert (Hqp : q <= 0 + List.length a1).
      { apply (indexOfFrom_first pat (s ++ x) 0 q a1 (b1 ++ x) E2).
        rewrite Hs1 at 1. rewrite <- !app_assoc. reflexivity. }
      assert (Hlen : List.length a1 + List.length pat <= List.length s).
      { rewrite Hs1, !length_app. lia. }
      assert (Hs3 : s = a2 ++ pat
                        ++ firstn (List.length s - List.length (a2 ++ pat)) b2).
      { assert (H1 : firstn (List.length s) (s ++ x) = s).
        { rewrite firstn_app, firstn_all, Nat.sub_diag. apply app_nil_r. }
        rewrite <- H1 at 1. rewrite Hs2, (app_assoc a2 pat b2), firstn_app.
        rewrite (firstn_all2 (n:=List.length s) (a2 ++ pat))
          by (rewrite length_app; lia).
        rewrite <- app_assoc. reflexivity. }
      pose proof (indexOfFrom_first pat s 0 p a2 _ E1 Hs3). lia.
    + exfalso. apply (indexOfFrom_None pat (s ++ x) 0 a (b ++ x) E2).
      rewrite Hs. rewrite <- !app_assoc. reflexivity.
  - exfalso. exact (indexOfFrom_None pat s 0 a b E1 Hs).
Qed.

Lemma nodeAt_Forall (P : TextNode -> Prop) (textNodes : list TextNode) :
  Forall P textNodes ->
  forall k, k < List.length textNodes -> P (nodeAt textNodes k).
Proof.
  unfold nodeAt. induction 1 as [|n l Hn _ IH]; intros k Hk.
  - cbn [List.length] in Hk. lia.
  - destruct k as [|k]; [exact Hn|]. cbn [nth]. apply IH.
    cbn [List.length] in Hk. lia.
Qed.

(** Nodes that lie in order start in order. *)
Lemma nodesInOrder_nth :
  forall (textNodes : list TextNode) (lo i j : nat),
    nodesInOrder lo textNodes -> i <= j -> j < List.length textNodes ->
    lo <= startIndex (nodeAt textNodes i)
    /\ startIndex (nodeAt textNodes i) <= startIndex (nodeAt textNodes j).
Proof.
  unfold nodeAt. induction textNodes as [|n l IH]; intros lo i j HO Hij Hj.
  - cbn [List.length] in Hj. lia.
  - cbn [nodesInOrder] in HO. destruct HO as (H1 & H2 & HO).
    cbn [List.length] in Hj.
    destruct j as [|j].
    + replace i with 0 by lia. cbn [nth]. lia.
    + destruct i as [|i]; cbn [nth].
      * destruct (IH (endIndex n) j j HO (le_n _)) as [H3 _]; [lia|]. lia.
      * destruct (IH (endIndex n) i j HO) as [H3 H4]; [lia | lia |]. lia.
Qed.

Lemma blockCallback_block (textNodes : list TextNode) (startIdx : nat)
      (tSpan offset : Z) (replacementText : jsstring)
      (blockA blockB : jsstring) (blockStart : nat)
      (firstTNode lastTNode : TextNode)
      (nodeIndex : nat) (openTag body : jsstring) :
  indexOf blockA (openTag ++ body ++ T_CLOSE)
  = indexOf blockB (openTag ++ body ++ T_CLOSE) ->
  blockCallback textNodes startIdx tSpan offset replacementText
                blockA blockStart firstTNode lastTNode nodeIndex openTag body
  = blockCallback textNodes startIdx tSpan offset replacementText
                  blockB blockStart firstTNode lastTNode nodeIndex openTag body.
Proof. intros H. unfold blockCallback. cbv zeta. rewrite H. reflexivity. Qed.

End RegionFacts.

Section BlockTail.

Context {St : Type}.
Variables cbA cbB : St -> jsstring -> jsstring -> jsstring * St.
Variables block body extra : jsstring.

Hypothesis body_noLT : Forall (fun c => c <> LT) body.
Hypothesis block_endsLeaf : endsLeaf body block.
Hypothesis extra_short : List.length extra < 11.
Hypothesis cb_agree :
  forall st openTag content pre rest,
    block = pre ++ (openTag ++ content ++ T_CLOSE) ++ rest ->
    cbA st openTag content = cbB st openTag content.

(** The rewrite of a block that reaches to the end of a leaf, when the
    block goes on for fewer code units than a leaf has: the leaves found
    are those of the block, and what follows the block is copied. *)
Lemma replaceTTags_app_extra :
  forall n t pre st,
    List.length t <= n -> block = pre ++ t ->
    replaceTTags cbA (t ++ extra) 0 st = replaceTTags cbB t 0 st ++ extra.
Proof.
  induction n as [|n IH]; intros t pre st Hl Hblk.
  - destruct t; [|cbn [List.length] in Hl; lia].
    cbn [app replaceTTags]. apply replaceTTags_short. exact extra_short.
  - destruct t as [|c t].
    { cbn [app replaceTTags]. apply replaceTTags_short. exact extra_short. }
    assert (Het : endsLeaf body (c :: t)).
    { apply (endsLeaf_app body pre). rewrite <- Hblk. exact block_endsLeaf. }
    pose proof (matchTTag_app_extra body (c :: t) extra
                                    body_noLT Het extra_short) as HM.
    destruct (matchTTag (c :: t)) as [[o b]|] eqn:E.
    + destruct (matchTTag_prefix _ _ _ E) as [rest Hrest].
      rewrite (replaceTTags_leaf cbB _ _ _ rest st E Hrest).
      assert (HrestA : (c :: t) ++ extra
                       = (o ++ b ++ T_CLOSE) ++ rest ++ extra)
        by (rewrite Hrest, <- app_assoc; reflexivity).
      rewrite (replaceTTags_leaf cbA _ _ _ (rest ++ extra) st HM HrestA).
      rewrite (cb_agree st o b pre rest) by (rewrite Hblk, Hrest; reflexivity).
      rewrite <- app_assoc. f_equal.
      apply (IH rest (pre ++ o ++ b ++ T_CLOSE)).
      * apply (f_equal (@List.length N)) in Hrest.
        rewrite !length_app, T_CLOSE_length in Hrest. lia.
      * rewrite Hblk, Hrest. rewrite <- !app_assoc. reflexivity.
    + cbn [app] in HM |- *.
      rewrite (replaceTTags_copy cbA _ _ st HM).
      rewrite (replaceTTags_copy cbB _ _ st E).
      cbn [app]. f_equal. apply (IH t (pre ++ [c])).
      * cbn [List.length] in Hl. lia.
      * rewrite Hblk, <- app_assoc. reflexivity.
Qed.

End BlockTail.

Section RegionEnd.

Variable xmlContent : jsstring.
Variable textNodes : list TextNode.
Variable startIdx : nat.
Variables tSpan offset : Z.
Variable replacementText : jsstring.

(** The six code units behind the last fragment of a match hold no leaf
    and complete none: the region that ends six code units behind the
    fragment is rewritten as the region that ends with the fragment. *)
Lemma spliceRegion_past_leaf (blockStart : nat) :
  let lastTNode := nodeAtZ textNodes (Z.of_nat startIdx + tSpan - 1) in
  nodeOf xmlContent lastTNode ->
  blockStart <= startIndex lastTNode ->
  spliceRegion xmlContent textNodes startIdx tSpan offset replacementText
               blockStart (endIndex lastTNode + 6)
  = spliceRegion xmlContent textNodes startIdx tSpan offset replacementText
                 blockStart (endIndex lastTNode).
Proof.
  intros lastTNode (attrs & Hfull & Ha & Hb & Hend & Hle & Hsub) Hbs.
  unfold spliceRegion. cbv zeta. fold lastTNode.
  set (firstTNode := nodeAt textNodes startIdx).
  set (sl := startIndex lastTNode) in *.
  set (e := endIndex lastTNode) in *.
  rewrite (substring_le xmlContent blockStart (e + 6)) by lia.
  rewrite (substring_le xmlContent blockStart e) by lia.
  replace (e + 6 - blockStart) with ((e - blockStart) + 6) by lia.
  rewrite firstn_plus, skipn_skipn.
  replace (e - blockStart + blockStart) with e by lia.
  set (block := firstn (e - blockStart) (skipn blockStart xmlContent)).
  set (extra := firstn 6 (skipn e xmlContent)).
  rewrite !substringFrom_skipn.
  assert (Hextra : extra ++ skipn (e + 6) xmlContent = skipn e xmlContent).
  { unfold extra. replace (e + 6) with (6 + e) by lia.
    rewrite <- skipn_skipn. apply firstn_skipn. }
  assert (Hblock : endsLeaf (content lastTNode) block).
  { left.
    exists (firstn (sl - blockStart) (skipn blockStart xmlContent)
            ++ T_OPEN ++ attrs).
    unfold block.
    replace (e - blockStart) with ((sl - blockStart) + (e - sl)) by lia.
    rewrite firstn_plus, skipn_skipn.
    replace (sl - blockStart + blockStart) with sl by lia.
    rewrite <- (substring_le xmlContent sl e) by lia.
    rewrite Hsub, Hfull. app_norm. reflexivity. }
  assert (Hlen : List.length extra < 11).
  { unfold extra. rewrite length_firstn. lia. }
  rewrite (replaceTTags_app_extra
             (blockCallback textNodes startIdx tSpan offset replacementText
                            (block ++ extra) blockStart firstTNode lastTNode)
             (blockCallback textNodes startIdx tSpan offset replacementText
                            block blockStart firstTNode lastTNode)
             block (content lastTNode) extra Hb Hblock Hlen)
    with (n := List.length block) (pre := @nil N).
  - rewrite <- !app_assoc, Hextra. reflexivity.
  - intros st o b pre rest Hocc. apply blockCallback_block.
    apply indexOf_app_occurs. exists pre, rest. exact Hocc.
  - apply le_n.
  - reflexivity.
Qed.

End RegionEnd.

(** For the node list of the markup and a match in range, the last node
    of the match is a leaf cut out of the markup and starts no earlier than
    the first. *)
Lemma match_nodes_of_markup (xmlContent : jsstring)
      (textNodes : list TextNode) (startIdx : nat) (tSpan offset : Z)
      (originalText replacementText : jsstring) :
  Forall (nodeOf xmlContent) textNodes ->
  nodesInOrder 0 textNodes ->
  (1 < tSpan)%Z ->
  inNodes textNodes
          (mkMatch startIdx tSpan originalText replacementText offset) ->
  nodeOf xmlContent (nodeAtZ textNodes (Z.of_nat startIdx + tSpan - 1))
  /\ startIndex (nodeAt textNodes startIdx)
     <= startIndex (nodeAtZ textNodes (Z.of_nat startIdx + tSpan - 1)).
Proof.
  intros Hnodes Horder Hspan [Hfirst Hlast].
  unfold lastNodeIndex in Hlast. cbn [startNodeIndex actualSpan] in Hlast.
  assert (Hk : startIdx <= Z.to_nat (Z.of_nat startIdx + tSpan - 1)
               /\ Z.to_nat (Z.of_nat startIdx + tSpan - 1)
                  < List.length textNodes) by lia.
  unfold nodeAtZ. split.
  - apply nodeAt_Forall; [exact Hnodes | apply Hk].
  - apply (nodesInOrder_nth textNodes 0 _ _ Horder); apply Hk.
Qed.



(* ===================================================================== *)
(** ** A rule with an empty original *)
(* ===================================================================== *)

Section EmptyOriginalFacts.

Lemma fold_left_rev {A B : Type} (f : A -> B -> A) (l : list B) (x : A) :
  fold_left f (rev l) x = fold_right (fun m acc => f acc m) x l.
Proof.
  induction l as [|a l IH]; [reflexivity|].
  cbn [rev fold_right]. rewrite fold_left_app. cbn [fold_left].
  rewrite IH. reflexivity.
Qed.

Lemma replaceStr_empty (body rep : jsstring) :
  noDollar rep -> replaceStr body [] rep = rep ++ body.
Proof.
  intros H.
  rewrite (replaceStr_plain body [] rep 0 (indexOf_nil body) H).
  reflexivity.
Qed.

Lemma replaceStr_occurs (s pat rep : jsstring) :
  noDollar rep -> (exists a b, s = a ++ pat ++ b) ->
  exists p,
    replaceStr s pat rep = firstn p s ++ rep ++ skipn (p + List.length pat) s
    /\ p + List.length pat <= List.length s.
Proof.
  intros Hr Hocc. apply includes_true_iff in Hocc. unfold includes in Hocc.
  destruct (indexOf s pat) as [p|] eqn:E; [|discriminate].
  exists p. split; [apply replaceStr_plain; assumption|].
  apply (indexOf_split _ _ _ E).
Qed.

(** The matcher on a rule with an empty original that no rule before it
    keeps from the fragments: it records every fragment on its own. *)
Lemma findMatches_empty_original (textNodes : list TextNode)
      (pre : list Redaction) (item : Redaction) (post : list Redaction) :
  original item = [] ->
  Forall (fun r =>
            Forall (fun node => includes (content node) (original r) = false)
                   textNodes) pre ->
  findMatches textNodes (pre ++ item :: post)
  = List.map (fun i => mkMatch i 1 [] (replacement item) 0)
             (seq 0 (List.length textNodes)).
Proof.
  intros Ho Hpre. unfold findMatches.
  rewrite (scanNodes_empty_original textNodes pre item post Ho Hpre).
  - reflexivity.
  - apply NoDup_ListNoDup, seq_NoDup.
  - rewrite Forall_forall. intros j Hj.
    apply list_elem_of_In, in_seq in Hj. split; [lia|].
    unfold has. apply bool_decide_eq_false. cbn [processed]. set_solver.
Qed.

(** The matches of an empty original are spliced leaf by leaf, from the
    last leaf to the first. *)
Lemma applyMatches_empty (rep x : jsstring) (nodes : list TextNode) :
  applyMatches x nodes
    (List.map (fun i => mkMatch i 1 [] rep 0) (seq 0 (List.length nodes)))
  = fold_right (fun n acc => spliceEmptyAt rep acc n) x nodes.
Proof.
  set (F := fun result m =>
              performCrossTagReplace result nodes (startNodeIndex m)
                (actualSpan m) (offsetInFirstNode m)
                (m_original m) (m_replacement m)).
  transitivity
    (fold_left F
       (rev (List.map (fun i => mkMatch i 1 [] rep 0)
                      (seq 0 (List.length nodes)))) x).
  { unfold applyMatches.
    destruct (List.map (fun i => mkMatch i 1 [] rep 0)
                       (seq 0 (List.length nodes))); reflexivity. }
  rewrite fold_left_rev.
  assert (G : forall l pre,
             nodes = pre ++ l ->
             fold_right (fun m acc => F acc m) x
               (List.map (fun i => mkMatch i 1 [] rep 0)
                         (seq (List.length pre) (List.length l)))
             = fold_right (fun n acc => spliceEmptyAt rep acc n) x l).
  { induction l as [|a l IH]; intros pre Hn; [reflexivity|].
    cbn [List.length seq List.map fold_right].
    replace (S (List.length pre)) with (List.length (pre ++ [a]))
      by (rewrite length_app; cbn [List.length]; lia).
    rewrite (IH (pre ++ [a])) by (rewrite Hn, <- app_assoc; reflexivity).
    unfold F. cbn [startNodeIndex actualSpan offsetInFirstNode
                   m_original m_replacement].
    assert (Ha : nodeAt nodes (List.length pre) = a)
      by (unfold nodeAt; rewrite Hn; apply nth_middle).
    unfold performCrossTagReplace, spliceEmptyAt.
    change ((1 =? 1)%Z) with true. change ((0 =? 0)%Z) with true.
    cbv iota zeta. rewrite Ha. reflexivity. }
  exact (G nodes [] eq_refl).
Qed.

End EmptyOriginalFacts.

Section EmptySplice.

Variable rep : jsstring.
Variable xml : jsstring.

Hypothesis rep_noDollar : noDollar rep.
Hypothesis xml_noDollar : noDollar xml.

(** One leaf spliced for an empty original, in a markup [cur] that is the
    markup [xml] up to the end of the leaf: the markup before the leaf
    stays, and the replacement is put in once. *)
Lemma spliceEmptyAt_grows (cur : jsstring) (n : TextNode) (lo : nat) :
  nodeOf xml n -> lo <= startIndex n ->
  firstn (endIndex n) cur = firstn (endIndex n) xml ->
  List.length xml <= List.length cur -> noDollar cur ->
  firstn lo (spliceEmptyAt rep cur n) = firstn lo xml
  /\ List.length (spliceEmptyAt rep cur n)
     = List.length cur + List.length rep
  /\ noDollar (spliceEmptyAt rep cur n).
Proof.
  intros (attrs & Hfull & Ha & Hb & Hend & Hle & Hsub) Hlo Hpre Hlen Hcur.
  assert (Hfd : noDollar (fullMatch n)).
  { rewrite <- Hsub, substring_le by lia.
    apply Forall_firstn_skipn, Forall_firstn_skipn. exact xml_noDollar. }
  assert (Hcd : noDollar (content n)).
  { unfold noDollar in Hfd. rewrite Hfull in Hfd.
    apply Forall_app in Hfd as [_ Hfd]. apply Forall_app in Hfd as [Hfd _].
    exact Hfd. }
  unfold spliceEmptyAt. cbv zeta.
  rewrite (replaceStr_empty (content n) rep rep_noDollar).
  destruct (replaceStr_occurs (fullMatch n) (content n) (rep ++ content n))
    as (p & Hrep & Hp).
  { apply Forall_app. split; assumption. }
  { exists (T_OPEN ++ attrs ++ [GT]), T_CLOSE. exact Hfull. }
  rewrite Hrep, substring_0, substringFrom_skipn.
  assert (Hs : firstn (startIndex n) cur = firstn (startIndex n) xml).
  { rewrite <- (Nat.min_l (startIndex n) (endIndex n)) by lia.
    rewrite <- !firstn_firstn, Hpre. reflexivity. }
  rewrite Hs.
  assert (Hfs : List.length (firstn (startIndex n) xml) = startIndex n).
  { rewrite length_firstn. lia. }
  split; [|split].
  - rewrite firstn_app, Hfs, firstn_firstn.
    replace (lo - startIndex n) with 0 by lia.
    rewrite Nat.min_l by lia. cbn [firstn]. apply app_nil_r.
  - rewrite !length_app, Hfs, length_firstn, !length_skipn. lia.
  - repeat (apply Forall_app; split);
      try apply Forall_firstn_skipn; assumption.
Qed.

Lemma spliceEmpty_fold :
  forall (l : list TextNode) (lo : nat),
    nodesInOrder lo l -> Forall (nodeOf xml) l ->
    firstn lo (fold_right (fun n acc => spliceEmptyAt rep acc n) xml l)
    = firstn lo xml
    /\ List.length (fold_right (fun n acc => spliceEmptyAt rep acc n) xml l)
       = List.length xml + List.length l * List.length rep
    /\ noDollar (fold_right (fun n acc => spliceEmptyAt rep acc n) xml l).
Proof.
  induction l as [|a l IH]; intros lo HO HF.
  - cbn [fold_right List.length].
    split; [reflexivity | split; [lia | exact xml_noDollar]].
  - cbn [nodesInOrder] in HO. destruct HO as (H1 & H2 & HO).
    inversion HF as [|? ? Hnode HF']; subst.
    destruct (IH (endIndex a) HO HF') as (Hp & Hl & Hd).
    cbn [fold_right].
    destruct (spliceEmptyAt_grows _ a lo Hnode H1 Hp ltac:(lia) Hd)
      as (A & B & C).
    split; [exact A|]. split; [|exact C].
    rewrite B, Hl. cbn [List.length]. lia.
Qed.

End EmptySplice.

Section EmptyOriginalPasses.

Variable item : Redaction.

Hypothesis item_empty : original item = [].
Hypothesis item_noDollar : noDollar (replacement item).

(** One pass with the rule as the only rule puts the replacement in once
    for each leaf. *)
Lemma pass_empty_original (xml : jsstring) :
  noDollar xml ->
  noDollar (handleCrossTagReplacement xml [item])
  /\ List.length (handleCrossTagReplacement xml [item])
     = List.length xml
       + List.length (leafContents xml) * List.length (replacement item).
Proof.
  intros Hx.
  unfold handleCrossTagReplacement, handleCrossTagReplacementSt,
    extractTextNodes.
  cbn [fst setLastIndex lastIndex].
  change [item] with ([] ++ item :: []).
  rewrite (findMatches_empty_original (execAll xml 0 0) [] item []
             item_empty (List.Forall_nil _)).
  rewrite applyMatches_empty.
  destruct (execAll_nodes xml xml [] 0 eq_refl) as [HF HO].
  destruct (spliceEmpty_fold (replacement item) xml item_noDollar Hx
              (execAll xml 0 0) 0 HO HF) as (_ & Hl & Hd).
  split; [exact Hd|].
  unfold leafContents. rewrite length_map. exact Hl.
Qed.

Lemma afterPasses_empty_original (xml : jsstring) :
  noDollar xml ->
  forall k,
    noDollar (afterPasses [item] k xml)
    /\ (1 <= k ->
        List.length xml
        + List.length (leafContents xml) * List.length (replacement item)
        <= List.length (afterPasses [item] k xml)).
Proof.
  intros Hx. unfold afterPasses.
  induction k as [|k [IHd IHl]]; [split; [exact Hx | lia]|].
  rewrite Nat.iter_succ.
  destruct (pass_empty_original _ IHd) as [Hd Hl].
  split; [exact Hd|]. intros _. rewrite Hl.
  destruct k as [|k].
  - change (Nat.iter 0 (fun r => handleCrossTagReplacement r [item]) xml)
      with xml.
    lia.
  - specialize (IHl ltac:(lia)). lia.
Qed.

(** The residual pass of the rule makes no leaf shorter. *)
Lemma residualRule_empty_length (xml : jsstring) :
  List.length xml <= List.length (residualRule item xml).
Proof.
  change (residualRule item xml) with (rewriteLeaves (applyRule item) xml).
  assert (Hg : forall b, List.length b <= List.length (applyRule item b)).
  { intros b. unfold applyRule. rewrite item_empty, split_join_empty_length.
    lia. }
  assert (H : forall n s, List.length s <= n ->
                List.length s <= List.length (rewriteLeaves (applyRule item) s)).
  { induction n as [|n IH]; intros s Hn.
    - destruct s; [cbn; lia | cbn [List.length] in Hn; lia].
    - destruct s as [|c s']; [cbn; lia|].
      destruct (matchTTag (c :: s')) as [[o b]|] eqn:Hm.
      + destruct (rewriteLeaves_head_leaf (applyRule item) _ _ _ Hm)
          as (attrs & rest & Ho & Ha & Hb & Hs & Hr).
        rewrite Hr.
        apply (f_equal (@List.length N)) in Hs.
        rewrite !length_app, T_CLOSE_length in Hs.
        rewrite !length_app, T_CLOSE_length.
        cbn [List.length] in Hs, Hn |- *.
        specialize (IH rest ltac:(lia)). specialize (Hg b). lia.
      + rewrite (rewriteLeaves_copy _ _ _ Hm). cbn [List.length] in Hn |- *.
        specialize (IH s' ltac:(lia)). lia. }
  exact (H _ xml (le_n _)).
Qed.

End EmptyOriginalPasses.

(** C4, amended.  There is no guard for an empty original.  For a rule
    whose original is the empty string:
    - when no rule before it in the list occurs in the content of a single
      fragment, the matcher records for it one match for each fragment, of
      that fragment alone and at offset 0;
    - when its replacement holds no [<], the residual pass of the rule
      keeps the leaves and the markup outside their contents, and makes of
      each leaf's content its code units joined by the replacement;
    - when it is the only rule, its replacement is not empty, neither the
      replacement nor the markup holds a dollar sign and the markup has a
      text leaf, the engine returns a markup longer than the one it got:
      the markup is altered. *)
Theorem empty_original_is_matched (item : Redaction) :
  original item = [] ->
  (forall (textNodes : list TextNode) (pre post : list Redaction),
      Forall (fun r =>
                Forall (fun node =>
                          includes (content node) (original r) = false)
                       textNodes) pre ->
      findMatches textNodes (pre ++ item :: post)
      = List.map (fun i => mkMatch i 1 [] (replacement item) 0)
                 (seq 0 (List.length textNodes)))
  /\ (forall xml : jsstring,
         Forall (fun c => c <> LT) (replacement item) ->
         leafContents (residualRule item xml)
         = List.map (fun body =>
                       join (List.map (fun c => [c]) body) (replacement item))
                    (leafContents xml)
         /\ emptyLeaves (residualRule item xml) = emptyLeaves xml)
  /\ (forall xml : jsstring,
         replacement item <> [] ->
         noDollar (replacement item) -> noDollar xml ->
         leafContents xml <> [] ->
         List.length xml < List.length (replaceInXML xml [item])
         /\ replaceInXML xml [item] <> xml).
Proof.
  intros Ho. split; [|split].
  - intros textNodes pre post Hpre.
    apply findMatches_empty_original; assumption.
  - intros xml Hr.
    assert (Hk : forall body, Forall (fun c => c <> LT) body ->
                              Forall (fun c => c <> LT) (applyRule item body))
      by (intros body Hb; apply applyRule_Forall; assumption).
    change (residualRule item xml) with (rewriteLeaves (applyRule item) xml).
    split.
    + rewrite (leafContents_rewriteLeaves _ Hk). apply map_ext.
      intros body. unfold applyRule, split. rewrite Ho. reflexivity.
    + unfold emptyLeaves. apply (rewriteLeaves_compose _ Hk (fun _ => [])).
  - intros xml Hne Hr Hx Hleaf.
    assert (Hlt : List.length xml < List.length (replaceInXML xml [item])).
    { unfold replaceInXML, replaceInXMLSt.
      destruct (iterateSt_done (mkRegExp 0) xml [item])
        as (k & re' & [Hk1 _] & Hit).
      rewrite Hit. cbn [fst driverResult residualPass fold_left].
      pose proof (residualRule_empty_length item Ho
                    (afterPasses [item] k xml)) as Hres.
      destruct (afterPasses_empty_original item Ho Hr xml Hx k) as [_ Hgrow].
      specialize (Hgrow Hk1).
      assert (1 <= List.length (leafContents xml))
        by (destruct (leafContents xml); [contradiction | cbn; lia]).
      assert (1 <= List.length (replacement item))
        by (destruct (replacement item); [contradiction | cbn; lia]).
      nia. }
    split; [exact Hlt|].
    intros Heq. rewrite Heq in Hlt. lia.
Qed.

Lemma empty_original_is_matched_witness :
  original (rule "" "X") = []
  /\ findMatches (textNodesOf abcMarkup) ([rule "xyz" "Q"] ++ rule "" "X" :: [])
     = [mkMatch 0 1 [] (str "X") 0; mkMatch 1 1 [] (str "X") 0]
  /\ leafContents (residualRule (rule "" "X") abcMarkup) = [str "aXb"; str "c"]
  /\ List.length abMarkup < List.length (replaceInXML abMarkup [rule "" "X"]).
Proof.
  assert (Ho : original (rule "" "X") = []) by reflexivity.
  pose proof (empty_original_is_matched (rule "" "X") Ho) as (HA & HB & HC).
  split; [exact Ho|]. split; [|split].
  - assert (Hpre : Forall (fun r =>
               Forall (fun node => includes (content node) (original r) = false)
                      (textNodesOf abcMarkup)) [rule "xyz" "Q"])
      by (vm_compute; repeat constructor).
    pose proof (HA (textNodesOf abcMarkup) [rule "xyz" "Q"] [] Hpre) as H.
    vm_compute in H. vm_compute. exact H.
  - assert (Hr : Forall (fun c => c <> LT) (replacement (rule "" "X")))
      by (vm_compute; repeat constructor; discriminate).
    pose proof (proj1 (HB abcMarkup Hr)) as H.
    vm_compute in H. vm_compute. exact H.
  - assert (H1 : replacement (rule "" "X") <> []) by (vm_compute; discriminate).
    assert (H2 : noDollar (replacement (rule "" "X")))
      by (vm_compute; repeat constructor; discriminate).
    assert (H3 : noDollar abMarkup)
      by (vm_compute; repeat constructor; discriminate).
    assert (H4 : leafContents abMarkup <> []) by (vm_compute; discriminate).
    pose proof (proj1 (HC abMarkup H1 H2 H3 H4)) as H.
    vm_compute in H. vm_compute. exact H.
Defined.
